(** * The blob-in-a-circle playground (script.js): model and properties

    The script keeps one global [game] object, a frozen [settings] object,
    a keyboard map built once from three rows of letters, and a [loop]
    callback that the browser calls once per display frame.

    Modelling decisions.
    - JavaScript numbers are modelled as exact rationals [Q]; rounding of
      IEEE doubles, NaN and the infinities are outside the model.  The only
      places where the script can produce NaN from finite inputs are the two
      divisions of [makeKeyMap] when the layout has a single row or a widest
      row of a single key; statements about [makeKeyMap] exclude them.
    - [Math.random()] is an oracle [rnd : nat -> Q]; the state counts the
      draws made so far, so the n-th call returns [rnd n].
    - [Math.hypot(a, b) > t] is decided on squares, without extracting the
      root (see [hypot_gt]); [hypot_gt_sqrt] relates it to the square root
      of the real numbers.
    - The DOM is write-only for the script: writes are recorded as a list of
      [Effect]s returned by each handler.
    - [game.keys] is a JavaScript [Set]; it iterates in insertion order and
      is modelled as a duplicate-free list.  Key names are ASCII strings.
    - Of [setup] only the first drift sample is kept; the page elements it
      creates are not modelled. *)

From Stdlib Require Import Reals Qreals.
From Stdlib Require Lra.
From Stdlib Require Import QArith Qminmax Lqa Lia Bool String Ascii List.
From stdpp Require Import gmap strings list.
Import ListNotations.

Local Open Scope Q_scope.

(** ** Numbers *)

Definition Qlt_bool (a b : Q) : bool := negb (Qle_bool b a).

(** [Math.hypot(a, b) > t]: true when [t] is negative, otherwise the
    comparison of the squares. *)
Definition hypot_gt (a b t : Q) : bool :=
  Qlt_bool t 0 || Qlt_bool (t * t) (a * a + b * b).

Record Vec : Type := mkVec { vx : Q; vy : Q }.

(** ** Settings *)

Record Settings : Type := mkSettings {
  blobSize : Q;
  randomShake : Q;
  pushPower : Q;
  slowDown : Q;
  pullPower : Q;
  hMax : Q;
  hRegen : Q;
  hCooldown : Q;
  driftPower : Q;
  driftChangeMin : Q;
  driftChangeMax : Q;
  flashTime : Q
}.

Definition settings : Settings := {|
  blobSize := 40;
  randomShake := 90;
  pushPower := 420;
  slowDown := 0.97;
  pullPower := 8;
  hMax := 3;
  hRegen := 0.6;
  hCooldown := 1;
  driftPower := 160;
  driftChangeMin := 0.6;
  driftChangeMax := 1.4;
  flashTime := 200
|}.

(** ** The keyboard map *)

(** [arr.forEach((el, i) => ...)] as a left-to-right fold that threads the
    index and the object the callback mutates. *)
Fixpoint forEach {A St : Type} (f : A -> nat -> St -> St) (l : list A) (i : nat) (s : St) : St :=
  match l with
  | [] => s
  | a :: l' => forEach f l' (S i) (f a i s)
  end.

(** [[...row]]: the keys of a row, each a one-character string. *)
Fixpoint spread (row : string) : list string :=
  match row with
  | EmptyString => []
  | String ch rest => String ch EmptyString :: spread rest
  end.

Definition num (n : nat) : Q := inject_Z (Z.of_nat n).

(** [Math.max(...rows.map(r => r.length))]; on an empty layout JavaScript
    gives -Infinity, which is then never used, since no callback runs. *)
Definition widest_of (rows : list string) : nat :=
  max_list (map String.length rows).

Definition key_vec (widest nrows r c : nat) : Vec :=
  {| vx := (num c / (num widest - 1)) * 2 - 1;
     vy := (num r / (num nrows - 1)) * 2 - 1 |}.

Definition makeKeyMap (rows : list string) : gmap string Vec :=
  let widest := widest_of rows in
  forEach (fun row r map =>
    forEach (fun key c map =>
      <[ key := key_vec widest (length rows) r c ]> map) (spread row) 0%nat map)
    rows 0%nat ∅.

Definition rows : list string := ["qwertyuiop"; "asdfghjkl"; "zxcvbnm"]%string.
Definition directions : gmap string Vec := makeKeyMap rows.

(** ** Direction of the first valid pressed key *)

Fixpoint getKeyDirection_in (directions : gmap string Vec) (keys : list string) : Vec :=
  match keys with
  | [] => {| vx := 0; vy := 0 |}
  | k :: rest =>
      if String.eqb k "h" then getKeyDirection_in directions rest
      else match directions !! k with
           | Some d => d
           | None => getKeyDirection_in directions rest
           end
  end.

(** ** Game state *)

Record Game : Type := mkGame {
  playing : bool;
  x : Q;
  y : Q;
  sx : Q;
  sy : Q;
  keys : list string;
  hLeft : Q;
  hCooling : Q;
  hOverheat : bool;
  time : Q;
  lastFrame : Q;
  driftX : Q;
  driftY : Q;
  driftTimer : Q
}.

(** Assignments to single fields of [game]. *)
Definition set_playing (v : bool) (g : Game) : Game :=
  {| playing := v; x := x g; y := y g; sx := sx g; sy := sy g; keys := keys g;
     hLeft := hLeft g; hCooling := hCooling g; hOverheat := hOverheat g; time := time g; lastFrame := lastFrame g;
     driftX := driftX g; driftY := driftY g; driftTimer := driftTimer g |}.
Definition set_x (v : Q) (g : Game) : Game :=
  {| playing := playing g; x := v; y := y g; sx := sx g; sy := sy g; keys := keys g;
     hLeft := hLeft g; hCooling := hCooling g; hOverheat := hOverheat g; time := time g; lastFrame := lastFrame g;
     driftX := driftX g; driftY := driftY g; driftTimer := driftTimer g |}.
Definition set_y (v : Q) (g : Game) : Game :=
  {| playing := playing g; x := x g; y := v; sx := sx g; sy := sy g; keys := keys g;
     hLeft := hLeft g; hCooling := hCooling g; hOverheat := hOverheat g; time := time g; lastFrame := lastFrame g;
     driftX := driftX g; driftY := driftY g; driftTimer := driftTimer g |}.
Definition set_sx (v : Q) (g : Game) : Game :=
  {| playing := playing g; x := x g; y := y g; sx := v; sy := sy g; keys := keys g;
     hLeft := hLeft g; hCooling := hCooling g; hOverheat := hOverheat g; time := time g; lastFrame := lastFrame g;
     driftX := driftX g; driftY := driftY g; driftTimer := driftTimer g |}.
Definition set_sy (v : Q) (g : Game) : Game :=
  {| playing := playing g; x := x g; y := y g; sx := sx g; sy := v; keys := keys g;
     hLeft := hLeft g; hCooling := hCooling g; hOverheat := hOverheat g; time := time g; lastFrame := lastFrame g;
     driftX := driftX g; driftY := driftY g; driftTimer := driftTimer g |}.
Definition set_keys (v : list string) (g : Game) : Game :=
  {| playing := playing g; x := x g; y := y g; sx := sx g; sy := sy g; keys := v;
     hLeft := hLeft g; hCooling := hCooling g; hOverheat := hOverheat g; time := time g; lastFrame := lastFrame g;
     driftX := driftX g; driftY := driftY g; driftTimer := driftTimer g |}.
Definition set_hLeft (v : Q) (g : Game) : Game :=
  {| playing := playing g; x := x g; y := y g; sx := sx g; sy := sy g; keys := keys g;
     hLeft := v; hCooling := hCooling g; hOverheat := hOverheat g; time := time g; lastFrame := lastFrame g;
     driftX := driftX g; driftY := driftY g; driftTimer := driftTimer g |}.
Definition set_hCooling (v : Q) (g : Game) : Game :=
  {| playing := playing g; x := x g; y := y g; sx := sx g; sy := sy g; keys := keys g;
     hLeft := hLeft g; hCooling := v; hOverheat := hOverheat g; time := time g; lastFrame := lastFrame g;
     driftX := driftX g; driftY := driftY g; driftTimer := driftTimer g |}.
Definition set_hOverheat (v : bool) (g : Game) : Game :=
  {| playing := playing g; x := x g; y := y g; sx := sx g; sy := sy g; keys := keys g;
     hLeft := hLeft g; hCooling := hCooling g; hOverheat := v; time := time g; lastFrame := lastFrame g;
     driftX := driftX g; driftY := driftY g; driftTimer := driftTimer g |}.
Definition set_time (v : Q) (g : Game) : Game :=
  {| playing := playing g; x := x g; y := y g; sx := sx g; sy := sy g; keys := keys g;
     hLeft := hLeft g; hCooling := hCooling g; hOverheat := hOverheat g; time := v; lastFrame := lastFrame g;
     driftX := driftX g; driftY := driftY g; driftTimer := driftTimer g |}.
Definition set_lastFrame (v : Q) (g : Game) : Game :=
  {| playing := playing g; x := x g; y := y g; sx := sx g; sy := sy g; keys := keys g;
     hLeft := hLeft g; hCooling := hCooling g; hOverheat := hOverheat g; time := time g; lastFrame := v;
     driftX := driftX g; driftY := driftY g; driftTimer := driftTimer g |}.
Definition set_driftX (v : Q) (g : Game) : Game :=
  {| playing := playing g; x := x g; y := y g; sx := sx g; sy := sy g; keys := keys g;
     hLeft := hLeft g; hCooling := hCooling g; hOverheat := hOverheat g; time := time g; lastFrame := lastFrame g;
     driftX := v; driftY := driftY g; driftTimer := driftTimer g |}.
Definition set_driftY (v : Q) (g : Game) : Game :=
  {| playing := playing g; x := x g; y := y g; sx := sx g; sy := sy g; keys := keys g;
     hLeft := hLeft g; hCooling := hCooling g; hOverheat := hOverheat g; time := time g; lastFrame := lastFrame g;
     driftX := driftX g; driftY := v; driftTimer := driftTimer g |}.
Definition set_driftTimer (v : Q) (g : Game) : Game :=
  {| playing := playing g; x := x g; y := y g; sx := sx g; sy := sy g; keys := keys g;
     hLeft := hLeft g; hCooling := hCooling g; hOverheat := hOverheat g; time := time g; lastFrame := lastFrame g;
     driftX := driftX g; driftY := driftY g; driftTimer := v |}.

(** The global random source: [drawn] counts the calls of [Math.random()]
    made so far. *)
Record World : Type := mkWorld { game : Game; drawn : nat }.

Definition upd (f : Game -> Game) (w : World) : World :=
  {| game := f (game w); drawn := drawn w |}.

Definition random (rnd : nat -> Q) (w : World) : Q * World :=
  (rnd (drawn w), {| game := game w; drawn := S (drawn w) |}).

(** ** The browser window and the DOM *)

Record Window : Type := mkWindow { innerWidth : Q; innerHeight : Q }.

Definition center (win : Window) : Vec :=
  {| vx := innerWidth win / 2; vy := innerHeight win / 2 |}.

Definition radius (win : Window) : Q :=
  Qmin (innerWidth win) (innerHeight win) * 0.35.

Inductive Effect : Type :=
| BlobFlash (ms : Q)
| ArenaFlash (ms : Q)
| GameOverText
| SetPositionPixels (left top : Q)
| TimeText (t : Q)
| RequestAnimationFrame.

(** ** Keyboard tracking *)

Definition toLowerCase_ascii (ch : ascii) : ascii :=
  let n := nat_of_ascii ch in
  if (65 <=? n)%nat && (n <=? 90)%nat then ascii_of_nat (n + 32) else ch.

Fixpoint toLowerCase (s : string) : string :=
  match s with
  | EmptyString => EmptyString
  | String ch rest => String (toLowerCase_ascii ch) (toLowerCase rest)
  end.

Definition keys_has (ks : list string) (k : string) : bool :=
  existsb (String.eqb k) ks.

Definition keys_add (k : string) (ks : list string) : list string :=
  if keys_has ks k then ks else ks ++ [k].

Definition keys_delete (k : string) (ks : list string) : list string :=
  List.filter (fun k' => negb (String.eqb k k')) ks.

Definition keydown (repeat : bool) (key : string) (g : Game) : Game :=
  if negb repeat then set_keys (keys_add (toLowerCase key) (keys g)) g else g.

Definition keyup (key : string) (g : Game) : Game :=
  set_keys (keys_delete (toLowerCase key) (keys g)) g.

Definition getKeyDirection (g : Game) : Vec :=
  getKeyDirection_in directions (keys g).

(** ** Drift *)

Definition pickNewDrift (st : Settings) (rnd : nat -> Q) (w : World) : World :=
  let (r, w) := random rnd w in
  let w := upd (set_driftX ((r * 2 - 1) * driftPower st)) w in
  let (r, w) := random rnd w in
  let w := upd (set_driftY ((r * 2 - 1) * driftPower st)) w in
  let span := driftChangeMax st - driftChangeMin st in
  let (r, w) := random rnd w in
  upd (set_driftTimer (driftChangeMin st + r * span)) w.

(** ** The frame callback

    [loop] is one function in the script; its commented blocks are kept as
    separate definitions here and composed in the same order. *)

(** Drift is always applied; direction changes sometimes. *)
Definition apply_drift (st : Settings) (rnd : nat -> Q) (dt : Q) (w : World) : World :=
  let w := upd (fun g => set_driftTimer (driftTimer g - dt) g) w in
  let w := if Qle_bool (driftTimer (game w)) 0 then pickNewDrift st rnd w else w in
  let w := upd (fun g => set_sx (sx g + driftX g * dt) g) w in
  upd (fun g => set_sy (sy g + driftY g * dt) g) w.

(** Tiny random wiggle, skipped while using H. *)
Definition wiggle (st : Settings) (rnd : nat -> Q) (dt : Q) (usingH : bool) (w : World) : World :=
  if negb usingH then
    let (r, w) := random rnd w in
    let w := upd (fun g => set_sx (sx g + (r - 0.5) * randomShake st * dt) g) w in
    let (r, w) := random rnd w in
    upd (fun g => set_sy (sy g + (r - 0.5) * randomShake st * dt) g) w
  else w.

(** Keyboard push. *)
Definition keyboard_push (st : Settings) (dt : Q) (g : Game) : Game :=
  let d := getKeyDirection g in
  let g := set_sx (sx g + vx d * pushPower st * dt) g in
  set_sy (sy g + vy d * pushPower st * dt) g.

(** H pull to center with battery and overheat. *)
Definition h_pull (st : Settings) (c : Vec) (dt : Q) (usingH : bool) (g : Game)
  : Game * list Effect :=
  if usingH then
    let g := set_sx (sx g + (vx c - x g) * pullPower st * dt) g in
    let g := set_sy (sy g + (vy c - y g) * pullPower st * dt) g in
    let g := set_hLeft (Qmax 0 (hLeft g - dt)) g in
    let g :=
      if Qeq_bool (hLeft g) 0 then
        let g := set_hOverheat true g in
        set_hCooling (hCooldown st) g
      else g in
    (g, [BlobFlash 80])
  else
    let g :=
      if hOverheat g then
        let g := set_hCooling (Qmax 0 (hCooling g - dt)) g in
        if Qeq_bool (hCooling g) 0 then set_hOverheat false g else g
      else
        set_hLeft (Qmin (hMax st) (hLeft g + hRegen st * dt)) g in
    (g, []).

(** Move and friction. *)
Definition move_friction (st : Settings) (dt : Q) (g : Game) : Game :=
  let g := set_x (x g + sx g * dt) g in
  let g := set_y (y g + sy g * dt) g in
  let g := set_sx (sx g * slowDown st) g in
  set_sy (sy g * slowDown st) g.

(** The test of the last block: out of circle. *)
Definition out_of_circle (st : Settings) (c : Vec) (r : Q) (g : Game) : bool :=
  hypot_gt (x g - vx c) (y g - vy c) (r - blobSize st / 2).

Definition canUseH (g : Game) : bool :=
  negb (hOverheat g) && Qlt_bool 0 (hLeft g).

Definition usingH (g : Game) : bool :=
  keys_has (keys g) "h" && canUseH g.

Definition loop (st : Settings) (rnd : nat -> Q) (win : Window) (now : Q) (w : World)
  : World * list Effect :=
  let dt := (now - lastFrame (game w)) / 1000 in
  let w := upd (set_lastFrame now) w in
  if negb (playing (game w)) then (w, []) else
  let c := center win in
  let usingH := usingH (game w) in
  let w := apply_drift st rnd dt w in
  let w := wiggle st rnd dt usingH w in
  let w := upd (keyboard_push st dt) w in
  let (g, out) := h_pull st c dt usingH (game w) in
  let w := upd (fun _ => g) w in
  let w := upd (move_friction st dt) w in
  if out_of_circle st c (radius win) (game w) then
    let w := upd (set_playing false) w in
    (w, out ++ [ArenaFlash (flashTime st); GameOverText])
  else
  let out := out ++ [SetPositionPixels (x (game w) - blobSize st / 2)
                                       (y (game w) - blobSize st / 2)] in
  let w := upd (fun g => set_time (time g + dt) g) w in
  (w, out ++ [TimeText (time (game w)); RequestAnimationFrame]).

(** ** Session start and event traces *)

Definition initial_game (st : Settings) (win : Window) (t0 : Q) : Game :=
  {| playing := true;
     x := innerWidth win / 2; y := innerHeight win / 2; sx := 0; sy := 0;
     keys := [];
     hLeft := hMax st; hCooling := 0; hOverheat := false;
     time := 0; lastFrame := t0;
     driftX := 0; driftY := 0; driftTimer := 0 |}.

Definition setup (st : Settings) (rnd : nat -> Q) (win : Window) (t0 : Q) : World :=
  pickNewDrift st rnd {| game := initial_game st win t0; drawn := 0 |}.

Inductive Event : Type :=
| KeyDown (repeat : bool) (key : string)
| KeyUp (key : string)
| Frame (win : Window) (now : Q).

Definition handle (st : Settings) (rnd : nat -> Q) (w : World) (e : Event) : World :=
  match e with
  | KeyDown repeat key => upd (keydown repeat key) w
  | KeyUp key => upd (keyup key) w
  | Frame win now => fst (loop st rnd win now w)
  end.

Definition run (st : Settings) (rnd : nat -> Q) (w : World) (evs : list Event) : World :=
  foldl (handle st rnd) w evs.

(** * Derived notions used in the statements *)

(** ** The battery: charge, cooldown and overheat flag *)

Record Battery : Type := mkBattery { b_left : Q; b_cooling : Q; b_overheat : bool }.

Definition battery (g : Game) : Battery :=
  {| b_left := hLeft g; b_cooling := hCooling g; b_overheat := hOverheat g |}.

(** What one frame of a running game does to the battery. *)
Definition battery_step (st : Settings) (dt : Q) (active : bool) (b : Battery) : Battery :=
  if active then
    let l := Qmax 0 (b_left b - dt) in
    if Qeq_bool l 0 then mkBattery l (hCooldown st) true
    else mkBattery l (b_cooling b) (b_overheat b)
  else if b_overheat b then
    let c := Qmax 0 (b_cooling b - dt) in
    mkBattery (b_left b) c (negb (Qeq_bool c 0))
  else mkBattery (Qmin (hMax st) (b_left b + hRegen st * dt)) (b_cooling b) false.

(** ** Frames and traces *)

Definition dt_of (now : Q) (w : World) : Q := (now - lastFrame (game w)) / 1000.

(** The state of a running game after the blocks up to "move + friction",
    before the circle test. *)
Definition moved (st : Settings) (rnd : nat -> Q) (win : Window) (now : Q) (w : World) : World :=
  let dt := dt_of now w in
  let u := usingH (game w) in
  let w := upd (set_lastFrame now) w in
  let w := apply_drift st rnd dt w in
  let w := wiggle st rnd dt u w in
  let w := upd (keyboard_push st dt) w in
  let w := upd (fun g => fst (h_pull st (center win) dt u g)) w in
  upd (move_friction st dt) w.

(** Groups of fields, to say which of them a block leaves alone. *)
Definition flags (g : Game) : bool * list string * Q * Q :=
  (playing g, keys g, time g, lastFrame g).

Definition position (g : Game) : Q * Q := (x g, y g).

Definition drift_of (g : Game) : Q * Q * Q := (driftX g, driftY g, driftTimer g).

(** Every frame of the trace arrives later than the frame before it, so
    that [dt > 0] in each call of [loop]. *)
Fixpoint dt_positive (st : Settings) (rnd : nat -> Q) (w : World) (evs : list Event) : Prop :=
  match evs with
  | [] => True
  | e :: evs' =>
      match e with
      | Frame _ now => 0 < dt_of now w
      | _ => True
      end /\ dt_positive st rnd (handle st rnd w e) evs'
  end.

(** The charge is between empty and full, the cooldown is not negative. *)
Definition battery_in_range (st : Settings) (b : Battery) : Prop :=
  0 <= b_left b /\ b_left b <= hMax st /\ 0 <= b_cooling b.

(** The flag is up exactly while the cooldown is running, and then the
    charge is empty. *)
Definition flag_tracks_cooldown (b : Battery) : Prop :=
  (b_overheat b = true -> 0 < b_cooling b /\ b_left b == 0) /\
  (b_overheat b = false -> b_cooling b == 0).

(** A frame of a running game in which the pull is in use and the charge
    ends at exactly 0. *)
Definition depleting_frame (st : Settings) (rnd : nat -> Q) (w : World) (e : Event) : Prop :=
  match e with
  | Frame _ _ =>
      playing (game w) = true /\ usingH (game w) = true /\
      hLeft (game (handle st rnd w e)) == 0
  | _ => False
  end.

(** The charge reached 0 by depletion at some frame of the trace, and in no
    state since then has the cooldown been back at 0. *)
Definition depleted_and_cooling (st : Settings) (rnd : nat -> Q) (w0 : World) (evs : list Event) : Prop :=
  exists pre e post,
    evs = pre ++ e :: post /\
    depleting_frame st rnd (run st rnd w0 pre) e /\
    forall k, ~ hCooling (game (run st rnd w0 (pre ++ e :: take k post))) == 0.

Definition is_key_event (e : Event) : bool :=
  match e with
  | Frame _ _ => false
  | _ => true
  end.

(** The value [pickNewDrift] gives the timer when [n] draws were made
    before it: the third of its own draws scales the span. *)
Definition resampled_timer (st : Settings) (rnd : nat -> Q) (n : nat) : Q :=
  driftChangeMin st + rnd (S (S n)) * (driftChangeMax st - driftChangeMin st).

(** ** Rest, and places in the keyboard layout *)

(** Nothing pushes the blob: it rests at the center of the window, no key
    is held, the drift is zero and the game is running. *)
Definition at_rest (win : Window) (g : Game) : Prop :=
  playing g = true /\ keys g = [] /\
  sx g == 0 /\ sy g == 0 /\ driftX g == 0 /\ driftY g == 0 /\
  x g == vx (center win) /\ y g == vy (center win).

(** The key [k] stands in row [r], column [c] of the layout. *)
Definition char_at (rows : list string) (r c : nat) (k : string) : Prop :=
  exists row, rows !! r = Some row /\ spread row !! c = Some k.

(** Reading order of the layout: rows top to bottom, keys left to right. *)
Definition later (r c r' c' : nat) : Prop :=
  (r < r')%nat \/ (r = r' /\ (c < c')%nat).

(** A key that [getKeyDirection] may answer with. *)
Definition eligible (m : gmap string Vec) (k : string) : Prop :=
  k <> "h"%string /\ is_Some (m !! k).

(** ** Sample inputs *)

Definition rnd_half : nat -> Q := fun _ => 0.5.
Definition rnd_zero : nat -> Q := fun _ => 0.
Definition win_1000 : Window := {| innerWidth := 1000; innerHeight := 1000 |}.

(** A window whose circle is smaller than the blob: its radius is 14. *)
Definition win_tiny : Window := {| innerWidth := 40; innerHeight := 40 |}.

Definition origin : Vec := {| vx := 0; vy := 0 |}.

(** A game with the blob at a given place. *)
Definition blob_at (px py : Q) : Game :=
  set_y py (set_x px (initial_game settings win_1000 0)).

(** The sample game with H, an unmapped key, D and A held, in this order
    of pressing. *)
Definition game_with_keys : Game :=
  set_keys ["h"; "1"; "d"; "a"]%string (initial_game settings win_1000 0).

(** Hold H from the start and let one long frame of four seconds pass. *)
Definition trace_hold_h : list Event :=
  [KeyDown false "h"; Frame win_1000 16; Frame win_1000 4016].

(** Five frames, one second apart, the first one second after [t0]. *)
Definition five_seconds (win : Window) (t0 : Q) : list Event :=
  [Frame win (t0 + 1000); Frame win (t0 + 2000); Frame win (t0 + 3000);
   Frame win (t0 + 4000); Frame win (t0 + 5000)].

(** The script's settings with the drift switched off. *)
Definition settings_no_drift : Settings := {|
  blobSize := blobSize settings;
  randomShake := randomShake settings;
  pushPower := pushPower settings;
  slowDown := slowDown settings;
  pullPower := pullPower settings;
  hMax := hMax settings;
  hRegen := hRegen settings;
  hCooldown := hCooldown settings;
  driftPower := 0;
  driftChangeMin := driftChangeMin settings;
  driftChangeMax := driftChangeMax settings;
  flashTime := flashTime settings
|}.

(** The script's settings with neither drift nor wiggle. *)
Definition settings_calm : Settings := {|
  blobSize := blobSize settings;
  randomShake := 0;
  pushPower := pushPower settings;
  slowDown := slowDown settings;
  pullPower := pullPower settings;
  hMax := hMax settings;
  hRegen := hRegen settings;
  hCooldown := hCooldown settings;
  driftPower := 0;
  driftChangeMin := driftChangeMin settings;
  driftChangeMax := driftChangeMax settings;
  flashTime := flashTime settings
|}.

(** The sample game after one frame of a second, with every random draw 0:
    still running, and moving. *)
Definition moving_world : World :=
  run settings rnd_zero (setup settings rnd_zero win_1000 0) [Frame win_1000 1000].

(** The same game after a second such frame: the blob has left the circle. *)
Definition dead_world : World :=
  run settings rnd_zero (setup settings rnd_zero win_1000 0)
    [Frame win_1000 1000; Frame win_1000 2000].

(** Five seconds without drift but with the script's wiggle, every random
    draw 0. *)
Definition wiggled_world : World :=
  run settings_no_drift rnd_zero (setup settings_no_drift rnd_zero win_1000 0)
    (five_seconds win_1000 0).

(** Five seconds without drift and without wiggle in the tiny window. *)
Definition cramped_world : World :=
  run settings_calm rnd_zero (setup settings_calm rnd_zero win_tiny 0)
    (five_seconds win_tiny 0).

(** ** Notions for the further properties *)

(** Everything in the game except the held keys and the stored timestamp. *)
Definition simulation_of (g : Game)
  : bool * (Q * Q) * (Q * Q) * Battery * Q * (Q * Q * Q) :=
  (playing g, position g, (sx g, sy g), battery g, time g, drift_of g).

(** What a frame writes to the page, given whether the pull was in use and
    the state the frame left. *)
Definition page_writes (st : Settings) (pulling : bool) (g' : Game) : list Effect :=
  (if pulling then [BlobFlash 80] else []) ++
  (if playing g' then
     [SetPositionPixels (x g' - blobSize st / 2) (y g' - blobSize st / 2);
      TimeText (time g'); RequestAnimationFrame]
   else [ArenaFlash (flashTime st); GameOverText]).

(** Both components of the drift are within the drift power. *)
Definition drift_bounded (st : Settings) (g : Game) : Prop :=
  - driftPower st <= driftX g /\ driftX g <= driftPower st /\
  - driftPower st <= driftY g /\ driftY g <= driftPower st.
(** * Properties *)

(** ** Boolean tests on rationals *)

Lemma Qlt_bool_iff a b : Qlt_bool a b = true <-> a < b.
Proof.
  unfold Qlt_bool. rewrite negb_true_iff, <- not_true_iff_false, Qle_bool_iff. split.
  - apply Qnot_le_lt.
  - apply Qlt_not_le.
Qed.

Lemma Qlt_bool_false a b : Qlt_bool a b = false <-> b <= a.
Proof.
  unfold Qlt_bool. rewrite negb_false_iff. apply Qle_bool_iff.
Qed.

Lemma Qle_bool_false a b : Qle_bool a b = false <-> b < a.
Proof.
  rewrite <- not_true_iff_false, Qle_bool_iff. split.
  - apply Qnot_le_lt.
  - apply Qlt_not_le.
Qed.

Lemma Qeq_bool_false a b : Qeq_bool a b = false <-> ~ a == b.
Proof. rewrite <- not_true_iff_false, Qeq_bool_iff. reflexivity. Qed.


(** The test on squares is the comparison with the Euclidean norm. *)
Lemma hypot_gt_sqrt a b t :
  hypot_gt a b t = true <-> (Q2R t < sqrt (Q2R a * Q2R a + Q2R b * Q2R b))%R.
Proof.
  unfold hypot_gt. rewrite orb_true_iff, !Qlt_bool_iff.
  set (s := (Q2R a * Q2R a + Q2R b * Q2R b)%R).
  assert (Hs : Q2R (a * a + b * b) = s).
  { unfold s. rewrite Q2R_plus, !Q2R_mult. reflexivity. }
  assert (Hneg : t < 0 -> (Q2R t < sqrt s)%R).
  { intros Ht. apply Qlt_Rlt in Ht. rewrite RMicromega.Q2R_0 in Ht.
    pose proof (sqrt_pos s). Lra.lra. }
  assert (Hroot : 0 <= t -> Q2R t = sqrt (Q2R t * Q2R t)).
  { intros Ht. apply Qle_Rle in Ht. rewrite RMicromega.Q2R_0 in Ht.
    symmetry. apply sqrt_square, Ht. }
  split.
  - intros [Ht|Hsq]; [apply Hneg, Ht|].
    destruct (Qlt_le_dec t 0) as [Ht|Ht]; [apply Hneg, Ht|].
    rewrite (Hroot Ht). apply sqrt_lt_1_alt. split.
    + apply Rle_0_sqr.
    + apply Qlt_Rlt in Hsq. rewrite Q2R_mult, Hs in Hsq. exact Hsq.
  - intros Hlt. destruct (Qlt_le_dec t 0) as [Ht|Ht]; [left; exact Ht|right].
    rewrite (Hroot Ht) in Hlt. apply sqrt_lt_0_alt in Hlt.
    apply Rlt_Qlt. rewrite Q2R_mult, Hs. exact Hlt.
Qed.
(** Reduction of field reads over field assignments, and nothing else. *)
Ltac fields :=
  cbn [game drawn upd fst snd
       playing x y sx sy keys hLeft hCooling hOverheat time lastFrame
       driftX driftY driftTimer
       set_playing set_x set_y set_sx set_sy set_keys set_hLeft set_hCooling
       set_hOverheat set_time set_lastFrame set_driftX set_driftY set_driftTimer
       battery flags position drift_of b_left b_cooling b_overheat] in *.

Section Frames.
Variables (st : Settings) (rnd : nat -> Q).

Lemma loop_dead win now w :
  playing (game w) = false -> loop st rnd win now w = (upd (set_lastFrame now) w, []).
Proof.
  intros Hp. unfold loop. cbn [upd game set_lastFrame playing]. rewrite Hp. reflexivity.
Qed.

Lemma loop_alive win now w :
  playing (game w) = true ->
  fst (loop st rnd win now w) =
    let m := moved st rnd win now w in
    if out_of_circle st (center win) (radius win) (game m)
    then upd (set_playing false) m
    else upd (fun g => set_time (time g + dt_of now w) g) m.
Proof.
  intros Hp. unfold loop, moved, dt_of. cbn [upd game set_lastFrame playing]. rewrite Hp.
  cbn [negb]. cbv zeta. unfold upd. cbn [game drawn].
  change (usingH (set_lastFrame now (game w))) with (usingH (game w)).
  destruct (h_pull _ _ _ _ _) as [g1 out]. cbn [fst].
  destruct (out_of_circle _ _ _ _); reflexivity.
Qed.

(** Which fields each block leaves alone. *)

Lemma apply_drift_frame dt w :
  let g' := game (apply_drift st rnd dt w) in
  battery g' = battery (game w) /\ flags g' = flags (game w) /\ position g' = position (game w).
Proof. unfold apply_drift. cbv zeta. destruct (Qle_bool _ _); repeat split. Qed.

Lemma wiggle_frame dt u w :
  let g' := game (wiggle st rnd dt u w) in
  battery g' = battery (game w) /\ flags g' = flags (game w) /\
  position g' = position (game w) /\ drift_of g' = drift_of (game w).
Proof. destruct u; repeat split. Qed.

Lemma keyboard_push_frame dt g :
  let g' := keyboard_push st dt g in
  battery g' = battery g /\ flags g' = flags g /\
  position g' = position g /\ drift_of g' = drift_of g.
Proof. repeat split. Qed.

Lemma h_pull_frame c dt u g :
  let g' := fst (h_pull st c dt u g) in
  flags g' = flags g /\ position g' = position g /\ drift_of g' = drift_of g.
Proof.
  unfold h_pull. destruct u; cbv zeta.
  - cbn [hLeft set_hLeft]. destruct (Qeq_bool _ _); repeat split.
  - destruct (hOverheat g); [cbn [hCooling set_hCooling]; destruct (Qeq_bool _ _)|]; repeat split.
Qed.

Lemma h_pull_battery c dt u g :
  battery (fst (h_pull st c dt u g)) = battery_step st dt u (battery g).
Proof.
  unfold h_pull, battery_step. destruct u.
  - cbv zeta. cbn [hLeft set_hLeft set_sx set_sy battery b_left].
    destruct (Qeq_bool _ 0); reflexivity.
  - destruct g as [? ? ? ? ? ? ? ? [] ? ? ? ? ?];
      cbn [hOverheat battery b_overheat b_cooling b_left fst].
    + cbn [hCooling set_hCooling]. destruct (Qeq_bool _ 0); reflexivity.
    + reflexivity.
Qed.

Lemma move_friction_frame dt g :
  let g' := move_friction st dt g in
  battery g' = battery g /\ flags g' = flags g /\ drift_of g' = drift_of g.
Proof. repeat split. Qed.

Lemma moved_battery win now w :
  battery (game (moved st rnd win now w))
  = battery_step st (dt_of now w) (usingH (game w)) (battery (game w)).
Proof.
  unfold moved. cbv zeta. cbn [game upd].
  rewrite (proj1 (move_friction_frame _ _)), h_pull_battery.
  rewrite (proj1 (keyboard_push_frame _ _)), (proj1 (wiggle_frame _ _ _)).
  rewrite (proj1 (apply_drift_frame _ _)). reflexivity.
Qed.

Lemma moved_flags win now w :
  flags (game (moved st rnd win now w)) = (playing (game w), keys (game w), time (game w), now).
Proof.
  unfold moved. cbv zeta. cbn [game upd].
  rewrite (proj1 (proj2 (move_friction_frame _ _))), (proj1 (h_pull_frame _ _ _ _)).
  rewrite (proj1 (proj2 (keyboard_push_frame _ _))), (proj1 (proj2 (wiggle_frame _ _ _))).
  rewrite (proj1 (proj2 (apply_drift_frame _ _))). reflexivity.
Qed.

Lemma loop_battery win now w :
  playing (game w) = true ->
  battery (game (fst (loop st rnd win now w)))
  = battery_step st (dt_of now w) (usingH (game w)) (battery (game w)).
Proof.
  intros Hp. rewrite (loop_alive _ _ _ Hp). cbv zeta.
  rewrite <- (moved_battery win). generalize (moved st rnd win now w) as m. intros m.
  destruct (out_of_circle _ _ _ _); reflexivity.
Qed.

Lemma loop_keys win now w : keys (game (fst (loop st rnd win now w))) = keys (game w).
Proof.
  destruct (playing (game w)) eqn:Hp.
  - rewrite (loop_alive _ _ _ Hp). cbv zeta.
    pose proof (moved_flags win now w) as Hf. revert Hf.
    generalize (moved st rnd win now w) as m. intros m Hf.
    unfold flags in Hf. injection Hf as _ Hk _ _.
    destruct (out_of_circle _ _ _ _); exact Hk.
  - rewrite (loop_dead _ _ _ Hp). reflexivity.
Qed.
End Frames.

(** ** Traces *)

Section Traces.
Variables (st : Settings) (rnd : nat -> Q).

Lemma run_app w evs1 evs2 :
  run st rnd w (evs1 ++ evs2) = run st rnd (run st rnd w evs1) evs2.
Proof. apply foldl_app. Qed.

Lemma run_cons w e evs :
  run st rnd w (e :: evs) = run st rnd (handle st rnd w e) evs.
Proof. reflexivity. Qed.

Lemma run_snoc w evs e :
  run st rnd w (evs ++ [e]) = handle st rnd (run st rnd w evs) e.
Proof. rewrite run_app. reflexivity. Qed.

Lemma dt_positive_take w evs n :
  dt_positive st rnd w evs -> dt_positive st rnd w (take n evs).
Proof.
  revert w n. induction evs as [|e evs IH]; intros w [|n]; cbn; try tauto.
  intros [He Hevs]. split; [exact He|]. apply IH, Hevs.
Qed.

(** An invariant of the handlers that holds at the start holds after
    every trace whose frames all have a positive [dt]. *)
Lemma run_invariant (P : World -> Prop) :
  (forall w repeat key, P w -> P (upd (keydown repeat key) w)) ->
  (forall w key, P w -> P (upd (keyup key) w)) ->
  (forall w win now, 0 < dt_of now w -> P w -> P (fst (loop st rnd win now w))) ->
  forall evs w, P w -> dt_positive st rnd w evs -> P (run st rnd w evs).
Proof.
  intros Hdown Hup Hloop. induction evs as [|e evs IH]; intros w Hw Hpos; [exact Hw|].
  destruct Hpos as [He Hevs]. cbn. apply IH; [|exact Hevs].
  destruct e; cbn; auto.
Qed.

(** The same without any condition on [dt]. *)
Lemma run_invariant_any (P : World -> Prop) :
  (forall w repeat key, P w -> P (upd (keydown repeat key) w)) ->
  (forall w key, P w -> P (upd (keyup key) w)) ->
  (forall w win now, P w -> P (fst (loop st rnd win now w))) ->
  forall evs w, P w -> P (run st rnd w evs).
Proof.
  intros Hdown Hup Hloop. induction evs as [|e evs IH]; intros w Hw; [exact Hw|].
  cbn. apply IH. destruct e; cbn; auto.
Qed.

Lemma keydown_battery repeat key g : battery (keydown repeat key g) = battery g.
Proof. unfold keydown. destruct repeat; reflexivity. Qed.

Lemma keyup_battery key g : battery (keyup key g) = battery g.
Proof. reflexivity. Qed.

(** What any event does to the battery. *)
Lemma handle_battery w e :
  battery (game (handle st rnd w e)) =
    match e with
    | Frame _ now =>
        if playing (game w)
        then battery_step st (dt_of now w) (usingH (game w)) (battery (game w))
        else battery (game w)
    | _ => battery (game w)
    end.
Proof.
  destruct e as [repeat key|key|win now]; cbn [handle].
  - apply keydown_battery.
  - apply keyup_battery.
  - destruct (playing (game w)) eqn:Hp.
    + apply loop_battery, Hp.
    + rewrite (loop_dead _ _ _ _ _ Hp). reflexivity.
Qed.
End Traces.

(** ** The battery state machine *)

Section Battery.
Variable st : Settings.

Lemma battery_step_in_range dt u b :
  0 <= hMax st -> 0 <= hRegen st -> 0 <= hCooldown st -> 0 < dt ->
  battery_in_range st b -> battery_in_range st (battery_step st dt u b).
Proof.
  intros Hmax Hregen Hcool Hdt (Hl0 & Hl1 & Hc).
  unfold battery_step, battery_in_range. destruct u; cbv zeta.
  - assert (Hm : Qmax 0 (b_left b - dt) <= hMax st).
    { apply Q.max_lub; [exact Hmax|]. lra. }
    destruct (Qeq_bool _ 0); cbn [b_left b_cooling];
      (split; [apply Q.le_max_l|]); (split; [exact Hm|]); assumption.
  - destruct (b_overheat b); cbn [b_left b_cooling].
    + split; [exact Hl0|]. split; [exact Hl1|]. apply Q.le_max_l.
    + split; [|split; [apply Q.le_min_l|exact Hc]].
      apply Q.min_glb; [exact Hmax|]. nra.
Qed.

Lemma battery_step_flag dt u b :
  0 < hCooldown st ->
  (u = true -> b_overheat b = false) ->
  flag_tracks_cooldown b -> flag_tracks_cooldown (battery_step st dt u b).
Proof.
  intros Hcool Hu [Hon Hoff]. unfold battery_step, flag_tracks_cooldown.
  destruct u; cbv zeta.
  - specialize (Hu eq_refl). destruct (Qeq_bool _ 0) eqn:Hz; cbn [b_left b_cooling b_overheat].
    + apply Qeq_bool_iff in Hz. split; [intros _; split; assumption|discriminate].
    + rewrite Hu. split; [discriminate|intros _; auto].
  - destruct (b_overheat b) eqn:Ho; cbn [b_left b_cooling b_overheat].
    + destruct (Hon eq_refl) as [_ Hl].
      destruct (Qeq_bool _ 0) eqn:Hz; cbn [negb].
      * apply Qeq_bool_iff in Hz. split; [discriminate|intros _; exact Hz].
      * apply Qeq_bool_false in Hz. split; [|discriminate]. intros _. split; [|exact Hl].
        pose proof (Q.le_max_l 0 (b_cooling b - dt)) as Hge.
        apply Qle_lteq in Hge. destruct Hge as [Hlt|Heq]; [exact Hlt|].
        exfalso. apply Hz. symmetry. exact Heq.
    + split; [discriminate|intros _; auto].
Qed.
End Battery.

Section BatterySteps.
Variable st : Settings.

Lemma usingH_not_overheated g : usingH g = true -> hOverheat g = false.
Proof.
  unfold usingH, canUseH. intros Hu.
  apply andb_true_iff in Hu as [_ Hu]. apply andb_true_iff in Hu as [Hu _].
  apply negb_true_iff, Hu.
Qed.

Lemma usingH_needs_charge g : hLeft g == 0 -> usingH g = false.
Proof.
  intros Hl. unfold usingH, canUseH.
  assert (Qlt_bool 0 (hLeft g) = false) as -> by (apply Qlt_bool_false; lra).
  rewrite !andb_false_r. reflexivity.
Qed.

Lemma battery_step_turns_on dt u b :
  b_overheat b = false -> b_overheat (battery_step st dt u b) = true ->
  u = true /\ b_left (battery_step st dt u b) == 0.
Proof.
  unfold battery_step. intros Hoff. destruct u; cbv zeta.
  - destruct (Qeq_bool _ 0) eqn:Hz; cbn [b_overheat b_left].
    + intros _. split; [reflexivity|]. apply Qeq_bool_iff, Hz.
    + congruence.
  - rewrite Hoff. cbn [b_overheat]. discriminate.
Qed.

Lemma battery_step_on_when_empty dt b :
  b_left (battery_step st dt true b) == 0 -> b_overheat (battery_step st dt true b) = true.
Proof.
  unfold battery_step. cbv zeta.
  destruct (Qeq_bool _ 0) eqn:Hz; cbn [b_overheat b_left]; [reflexivity|].
  apply Qeq_bool_false in Hz. intros Hl. contradiction.
Qed.

Lemma battery_step_stays_on dt b :
  b_overheat b = true -> ~ b_cooling (battery_step st dt false b) == 0 ->
  b_overheat (battery_step st dt false b) = true.
Proof.
  unfold battery_step. intros ->. cbv zeta. cbn [b_overheat b_cooling].
  intros Hc. apply negb_true_iff, Qeq_bool_false, Hc.
Qed.

(** The frame that ends the cooldown leaves the charge as it was. *)
Lemma battery_step_turns_off dt u b :
  (u = true -> b_overheat b = false) ->
  b_overheat b = true -> b_overheat (battery_step st dt u b) = false ->
  b_left (battery_step st dt u b) = b_left b /\ b_cooling (battery_step st dt u b) == 0.
Proof.
  intros Hu Hon. destruct u; [specialize (Hu eq_refl); congruence|].
  unfold battery_step. rewrite Hon. cbv zeta. cbn [b_overheat b_left b_cooling].
  intros Hz. apply negb_false_iff, Qeq_bool_iff in Hz. split; [reflexivity|exact Hz].
Qed.

Lemma battery_step_regen dt b :
  b_overheat b = false -> b_left b == 0 ->
  b_left (battery_step st dt false b) == Qmin (hMax st) (hRegen st * dt).
Proof.
  intros Hoff Hl. unfold battery_step. rewrite Hoff. cbn [b_left].
  apply Q.min_compat; [reflexivity|]. rewrite Hl. ring.
Qed.
End BatterySteps.

(** ** Charge, cooldown and overheat along traces *)

Section BatteryTraces.
Variables (st : Settings) (rnd : nat -> Q).

Lemma setup_battery win t0 :
  battery (game (setup st rnd win t0)) =
    {| b_left := hMax st; b_cooling := 0; b_overheat := false |}.
Proof. reflexivity. Qed.

Lemma run_battery_in_range w evs :
  0 <= hMax st -> 0 <= hRegen st -> 0 <= hCooldown st ->
  battery_in_range st (battery (game w)) ->
  dt_positive st rnd w evs ->
  battery_in_range st (battery (game (run st rnd w evs))).
Proof.
  intros Hmax Hregen Hcool Hw Hpos.
  apply (run_invariant st rnd (fun w => battery_in_range st (battery (game w))));
    try assumption.
  - intros w' repeat key. cbn [upd game]. rewrite keydown_battery. auto.
  - intros w' key. cbn [upd game]. rewrite keyup_battery. auto.
  - intros w' win now Hdt Hr.
    pose proof (handle_battery st rnd w' (Frame win now)) as Hb. cbn [handle] in Hb.
    rewrite Hb. destruct (playing (game w')); [|exact Hr].
    apply battery_step_in_range; assumption.
Qed.

Lemma run_flag_tracks_cooldown w evs :
  0 < hCooldown st ->
  flag_tracks_cooldown (battery (game w)) ->
  flag_tracks_cooldown (battery (game (run st rnd w evs))).
Proof.
  intros Hcool Hw.
  apply (run_invariant_any st rnd (fun w => flag_tracks_cooldown (battery (game w))));
    try assumption.
  - intros w' repeat key. cbn [upd game]. rewrite keydown_battery. auto.
  - intros w' key. cbn [upd game]. rewrite keyup_battery. auto.
  - intros w' win now Hr.
    pose proof (handle_battery st rnd w' (Frame win now)) as Hb. cbn [handle] in Hb.
    rewrite Hb. destruct (playing (game w')); [|exact Hr].
    apply battery_step_flag; [exact Hcool| |exact Hr].
    apply usingH_not_overheated.
Qed.

Lemma setup_flag_tracks_cooldown win t0 :
  flag_tracks_cooldown (battery (game (setup st rnd win t0))).
Proof.
  rewrite setup_battery. split; cbn [b_overheat b_cooling]; [discriminate|reflexivity].
Qed.

(** The flag can only go up in a depleting frame. *)
Lemma handle_turns_on w e :
  hOverheat (game w) = false -> hOverheat (game (handle st rnd w e)) = true ->
  depleting_frame st rnd w e.
Proof.
  intros Hoff Hon.
  pose proof (handle_battery st rnd w e) as Hb.
  assert (Hon' : b_overheat (battery (game (handle st rnd w e))) = true) by exact Hon.
  assert (Hl : b_left (battery (game (handle st rnd w e))) = hLeft (game (handle st rnd w e)))
    by reflexivity.
  destruct e as [repeat key|key|win now]; cbn [depleting_frame];
    try (rewrite Hb in Hon'; cbn [battery b_overheat] in Hon'; congruence).
  destruct (playing (game w)) eqn:Hp;
    [|rewrite Hb in Hon'; cbn [battery b_overheat] in Hon'; congruence].
  rewrite <- Hl, Hb. rewrite Hb in Hon'.
  destruct (battery_step_turns_on st _ _ (battery (game w)) Hoff Hon') as [Hu Hz]. auto.
Qed.

Lemma depleting_frame_turns_on w e :
  depleting_frame st rnd w e -> hOverheat (game (handle st rnd w e)) = true.
Proof.
  destruct e as [repeat key|key|win now]; cbn [depleting_frame]; try tauto.
  intros (Hp & Hu & Hz).
  pose proof (handle_battery st rnd w (Frame win now)) as Hb. rewrite Hp, Hu in Hb.
  change (b_overheat (battery (game (handle st rnd w (Frame win now)))) = true).
  change (b_left (battery (game (handle st rnd w (Frame win now)))) == 0) in Hz.
  rewrite Hb in *. apply battery_step_on_when_empty, Hz.
Qed.

(** While the cooldown has not reached 0 the flag stays up. *)
Lemma handle_stays_on w e :
  hOverheat (game w) = true -> ~ hCooling (game (handle st rnd w e)) == 0 ->
  hOverheat (game (handle st rnd w e)) = true.
Proof.
  intros Hon Hc.
  pose proof (handle_battery st rnd w e) as Hb.
  change (b_overheat (battery (game (handle st rnd w e))) = true).
  change (~ b_cooling (battery (game (handle st rnd w e))) == 0) in Hc.
  rewrite Hb in *.
  destruct e as [repeat key|key|win now]; try exact Hon.
  destruct (playing (game w)); [|exact Hon].
  destruct (usingH (game w)) eqn:Hu.
  - apply usingH_not_overheated in Hu. congruence.
  - apply battery_step_stays_on; assumption.
Qed.
End BatteryTraces.

(** C1. From the state left by [setup] (full charge, no cooldown), along
    any trace of key events and frames in which every frame has [dt > 0],
    after every prefix of the trace the charge lies between 0 and [hMax] and
    the cooldown is not negative.  The settings are any with non-negative
    [hMax], [hRegen] and [hCooldown], as in the script. *)
Theorem charge_and_cooldown_in_range st rnd win t0 evs :
  0 <= hMax st -> 0 <= hRegen st -> 0 <= hCooldown st ->
  dt_positive st rnd (setup st rnd win t0) evs ->
  forall n,
    let g := game (run st rnd (setup st rnd win t0) (take n evs)) in
    0 <= hLeft g /\ hLeft g <= hMax st /\ 0 <= hCooling g.
Proof.
  intros Hmax Hregen Hcool Hpos n.
  apply (run_battery_in_range st rnd (setup st rnd win t0) (take n evs)); try assumption.
  - rewrite setup_battery. unfold battery_in_range. cbn [b_left b_cooling]. lra.
  - apply dt_positive_take, Hpos.
Qed.

Lemma charge_and_cooldown_in_range_witness :
  dt_positive settings rnd_half (setup settings rnd_half win_1000 0) trace_hold_h /\
  let g := game (run settings rnd_half (setup settings rnd_half win_1000 0)
                   (take 3 trace_hold_h)) in
  0 <= hLeft g /\ hLeft g <= hMax settings /\ 0 <= hCooling g.
Proof.
  assert (Hpos : dt_positive settings rnd_half (setup settings rnd_half win_1000 0)
                   trace_hold_h).
  { vm_compute. repeat split. }
  split; [exact Hpos|].
  apply (charge_and_cooldown_in_range settings rnd_half win_1000 0 trace_hold_h);
    [vm_compute; discriminate .. | exact Hpos].
Defined.

(** C2. From the state left by [setup], after any trace the overheat flag
    is up if and only if some earlier frame with the pull in use brought the
    charge to exactly 0 and the cooldown has not been back at 0 in any state
    since; right after [setup] the flag is down.  The cooldown duration is
    positive, as in the script. *)
Theorem overheat_iff_depleted_and_cooling st rnd win t0 evs :
  0 < hCooldown st ->
  hOverheat (game (setup st rnd win t0)) = false /\
  (hOverheat (game (run st rnd (setup st rnd win t0) evs)) = true <->
   depleted_and_cooling st rnd (setup st rnd win t0) evs).
Proof.
  intros Hcool. split; [reflexivity|].
  set (w0 := setup st rnd win t0).
  assert (Hinv : forall l, flag_tracks_cooldown (battery (game (run st rnd w0 l)))).
  { intros l. apply run_flag_tracks_cooldown; [exact Hcool|].
    apply setup_flag_tracks_cooldown. }
  assert (Hpos : forall l, hOverheat (game (run st rnd w0 l)) = true ->
                           ~ hCooling (game (run st rnd w0 l)) == 0).
  { intros l Hon Hz. destruct (Hinv l) as [Hup _].
    destruct (Hup Hon) as [Hlt _]. cbn [battery b_cooling] in Hlt. lra. }
  split.
  - induction evs as [|e evs IH] using rev_ind; [discriminate|].
    intros Hon. destruct (hOverheat (game (run st rnd w0 evs))) eqn:Hbefore.
    + destruct (IH eq_refl) as (pre & e0 & post & Hsplit & Hdep & Hcooling).
      exists pre, e0, (post ++ [e]). split; [|split; [exact Hdep|]].
      * rewrite Hsplit, <- app_assoc. reflexivity.
      * intros k. destruct (decide (k <= length post)%nat) as [Hk|Hk].
        -- rewrite take_app_le by exact Hk. apply Hcooling.
        -- rewrite take_ge by (rewrite length_app; cbn; lia).
           rewrite app_comm_cons, app_assoc, <- Hsplit. apply Hpos, Hon.
    + exists evs, e, []. split; [reflexivity|]. split.
      * rewrite run_snoc in Hon. apply handle_turns_on; assumption.
      * intros k. rewrite take_nil. apply Hpos, Hon.
  - intros (pre & e & post & Hsplit & Hdep & Hcooling).
    assert (Hk : forall k, hOverheat (game (run st rnd w0 (pre ++ e :: take k post))) = true).
    { induction k as [|k IHk].
      - rewrite take_0, run_snoc. apply depleting_frame_turns_on, Hdep.
      - destruct (post !! k) as [e'|] eqn:Hlook.
        + specialize (Hcooling (S k)).
          rewrite (take_S_r _ _ _ Hlook) in *.
          rewrite app_comm_cons, app_assoc, run_snoc in *.
          apply handle_stays_on; assumption.
        + apply lookup_ge_None in Hlook.
          rewrite take_ge by lia. rewrite take_ge in IHk by lia. exact IHk. }
    specialize (Hk (length post)). rewrite firstn_all in Hk. rewrite Hsplit. exact Hk.
Qed.

Lemma overheat_iff_depleted_and_cooling_witness :
  0 < hCooldown settings /\
  hOverheat (game (setup settings rnd_half win_1000 0)) = false /\
  (hOverheat (game (run settings rnd_half (setup settings rnd_half win_1000 0)
                      trace_hold_h)) = true <->
   depleted_and_cooling settings rnd_half (setup settings rnd_half win_1000 0) trace_hold_h).
Proof.
  split; [reflexivity|].
  apply (overheat_iff_depleted_and_cooling settings rnd_half win_1000 0 trace_hold_h).
  reflexivity.
Defined.

Example hold_h_overheats :
  hOverheat (game (run settings rnd_half (setup settings rnd_half win_1000 0) trace_hold_h))
  = true.
Proof. vm_compute. reflexivity. Qed.

Section CooldownEnd.
Variables (st : Settings) (rnd : nat -> Q).

Lemma battery_step_hot_empty dt u b :
  (u = true -> b_overheat b = false) ->
  (b_overheat b = true -> b_left b == 0) ->
  b_overheat (battery_step st dt u b) = true -> b_left (battery_step st dt u b) == 0.
Proof.
  intros Hu Hb. unfold battery_step. destruct u; cbv zeta.
  - specialize (Hu eq_refl).
    destruct (Qeq_bool _ 0) eqn:Hz; cbn [b_overheat b_left].
    + intros _. apply Qeq_bool_iff, Hz.
    + congruence.
  - destruct (b_overheat b); cbn [b_overheat b_left]; [auto|discriminate].
Qed.

Lemma run_hot_empty w evs :
  (hOverheat (game w) = true -> hLeft (game w) == 0) ->
  hOverheat (game (run st rnd w evs)) = true -> hLeft (game (run st rnd w evs)) == 0.
Proof.
  intros Hw.
  apply (run_invariant_any st rnd
           (fun w => b_overheat (battery (game w)) = true -> b_left (battery (game w)) == 0));
    try assumption.
  - intros w' repeat key. cbn [upd game]. rewrite keydown_battery. auto.
  - intros w' key. cbn [upd game]. rewrite keyup_battery. auto.
  - intros w' win now Hr.
    pose proof (handle_battery st rnd w' (Frame win now)) as Hb. cbn [handle] in Hb.
    rewrite Hb. destruct (playing (game w')); [|exact Hr].
    apply battery_step_hot_empty; [|exact Hr]. apply usingH_not_overheated.
Qed.

(** Key events touch nothing but the set of held keys. *)
Lemma run_keys_only w keyevs :
  forallb is_key_event keyevs = true ->
  let w' := run st rnd w keyevs in
  battery (game w') = battery (game w) /\
  playing (game w') = playing (game w) /\
  lastFrame (game w') = lastFrame (game w).
Proof.
  revert w. induction keyevs as [|e keyevs IH]; intros w Hk; [repeat split|].
  cbn [forallb] in Hk. apply andb_true_iff in Hk as [He Hk].
  cbv zeta. rewrite run_cons. destruct (IH (handle st rnd w e) Hk) as (Hb & Hp & Hl).
  rewrite Hb, Hp, Hl.
  destruct e as [[] key|key|win now]; [repeat split ..|discriminate].
Qed.
End CooldownEnd.

(** C10. In the frame that brings the cooldown to 0 and clears the overheat
    flag the charge is not touched: it is what it was, exactly 0.  The next
    frame of a running game, whatever keys were pressed or released in
    between, regenerates it to [min hMax (hRegen * dt)]. *)
Theorem cooldown_end_leaves_charge_empty st rnd win0 t0 evs win now :
  let w := run st rnd (setup st rnd win0 t0) evs in
  let w1 := handle st rnd w (Frame win now) in
  hOverheat (game w) = true -> hOverheat (game w1) = false ->
  hCooling (game w1) == 0 /\
  hLeft (game w1) = hLeft (game w) /\ hLeft (game w1) == 0 /\
  forall keyevs win' now',
    forallb is_key_event keyevs = true ->
    playing (game w1) = true ->
    let w2 := run st rnd w1 keyevs in
    hLeft (game (handle st rnd w2 (Frame win' now')))
    == Qmin (hMax st) (hRegen st * dt_of now' w2).
Proof.
  intros w w1 Hon Hoff.
  assert (Hempty : hLeft (game w) == 0).
  { apply run_hot_empty; [discriminate|exact Hon]. }
  pose proof (handle_battery st rnd w (Frame win now)) as Hb. fold w1 in Hb.
  assert (Hoff' : b_overheat (battery (game w1)) = false) by exact Hoff.
  destruct (playing (game w)) eqn:Hp;
    [|rewrite Hb in Hoff'; cbn [battery b_overheat] in Hoff'; congruence].
  rewrite Hb in Hoff'.
  destruct (battery_step_turns_off st _ _ (battery (game w))
              (usingH_not_overheated (game w)) Hon Hoff') as [Hl Hc].
  rewrite <- Hb in Hl, Hc. cbn [battery b_left b_cooling] in Hl, Hc.
  split; [exact Hc|]. split; [exact Hl|]. split; [rewrite Hl; exact Hempty|].
  intros keyevs win' now' Hkeys Hp1 w2.
  destruct (run_keys_only st rnd w1 keyevs Hkeys) as (Hb2 & Hp2 & _). fold w2 in Hb2, Hp2.
  pose proof (handle_battery st rnd w2 (Frame win' now')) as Hb3.
  rewrite Hp2, Hp1 in Hb3.
  assert (Hl2 : hLeft (game w2) == 0).
  { change (b_left (battery (game w2)) == 0). rewrite Hb2. cbn [battery b_left].
    rewrite Hl. exact Hempty. }
  rewrite (usingH_needs_charge _ Hl2) in Hb3.
  change (b_left (battery (game (handle st rnd w2 (Frame win' now'))))
          == Qmin (hMax st) (hRegen st * dt_of now' w2)).
  rewrite Hb3. apply battery_step_regen; [|exact Hl2].
  change (b_overheat (battery (game w2)) = false). rewrite Hb2. exact Hoff.
Qed.

Lemma cooldown_end_leaves_charge_empty_witness :
  let w := run settings rnd_half (setup settings rnd_half win_1000 0) trace_hold_h in
  let w1 := handle settings rnd_half w (Frame win_1000 5016) in
  (hOverheat (game w) = true /\ hOverheat (game w1) = false) /\
  hCooling (game w1) == 0 /\
  hLeft (game w1) = hLeft (game w) /\ hLeft (game w1) == 0 /\
  forall keyevs win' now',
    forallb is_key_event keyevs = true ->
    playing (game w1) = true ->
    let w2 := run settings rnd_half w1 keyevs in
    hLeft (game (handle settings rnd_half w2 (Frame win' now')))
    == Qmin (hMax settings) (hRegen settings * dt_of now' w2).
Proof.
  split; [split; vm_compute; reflexivity|].
  apply (cooldown_end_leaves_charge_empty settings rnd_half win_1000 0 trace_hold_h
           win_1000 5016); vm_compute; reflexivity.
Defined.

(** ** The drift timer *)

Section Drift.
Variables (st : Settings) (rnd : nat -> Q).

Lemma pickNewDrift_timer w :
  driftTimer (game (pickNewDrift st rnd w)) = resampled_timer st rnd (drawn w).
Proof. reflexivity. Qed.

Lemma apply_drift_timer dt w :
  driftTimer (game (apply_drift st rnd dt w)) =
    if Qle_bool (driftTimer (game w) - dt) 0
    then resampled_timer st rnd (drawn w)
    else driftTimer (game w) - dt.
Proof.
  unfold apply_drift. cbv zeta. fields.
  destruct (Qle_bool (driftTimer (game w) - dt) 0); reflexivity.
Qed.

Lemma moved_drift win now w :
  drift_of (game (moved st rnd win now w)) =
  drift_of (game (apply_drift st rnd (dt_of now w) (upd (set_lastFrame now) w))).
Proof.
  unfold moved. cbv zeta. cbn [game upd].
  rewrite (proj2 (proj2 (move_friction_frame _ _ _))).
  rewrite (proj2 (proj2 (h_pull_frame _ _ _ _ _))).
  rewrite (proj2 (proj2 (proj2 (keyboard_push_frame _ _ _)))).
  rewrite (proj2 (proj2 (proj2 (wiggle_frame _ _ _ _ _)))).
  reflexivity.
Qed.

Lemma loop_driftTimer win now w :
  playing (game w) = true ->
  driftTimer (game (fst (loop st rnd win now w))) =
    if Qle_bool (driftTimer (game w) - dt_of now w) 0
    then resampled_timer st rnd (drawn w)
    else driftTimer (game w) - dt_of now w.
Proof.
  intros Hp. rewrite (loop_alive _ _ _ _ _ Hp). cbv zeta.
  pose proof (moved_drift win now w) as Hd.
  pose proof (apply_drift_timer (dt_of now w) (upd (set_lastFrame now) w)) as Ha.
  cbn [upd game drawn driftTimer set_lastFrame] in Ha. rewrite <- Ha. clear Ha.
  revert Hd. generalize (moved st rnd win now w) as m.
  generalize (apply_drift st rnd (dt_of now w) (upd (set_lastFrame now) w)) as a.
  intros a m Hd. unfold drift_of in Hd. injection Hd as _ _ Ht.
  destruct (out_of_circle _ _ _ _); exact Ht.
Qed.

Lemma resampled_timer_range n :
  (forall k, 0 <= rnd k /\ rnd k < 1) ->
  driftChangeMin st <= driftChangeMax st ->
  driftChangeMin st <= resampled_timer st rnd n /\ resampled_timer st rnd n <= driftChangeMax st.
Proof.
  intros Hrnd Hspan. unfold resampled_timer.
  destruct (Hrnd (S (S n))) as [H0 H1]. split; nra.
Qed.
End Drift.

(** C9. With [Math.random()] in [0, 1) and [0 < driftChangeMin <=
    driftChangeMax]: a frame of a running game whose drift timer, once [dt]
    is taken off, is at or below 0 resamples it in that same frame to a
    value in [driftChangeMin, driftChangeMax], hence positive; after every
    frame of a running game the timer is positive; and so it is after every
    trace that starts from [setup]. *)
Theorem drift_timer_resampled_positive st rnd :
  (forall n, 0 <= rnd n /\ rnd n < 1) ->
  0 < driftChangeMin st -> driftChangeMin st <= driftChangeMax st ->
  (forall w win now,
     playing (game w) = true -> driftTimer (game w) - dt_of now w <= 0 ->
     let t := driftTimer (game (fst (loop st rnd win now w))) in
     driftChangeMin st <= t /\ t <= driftChangeMax st /\ 0 < t) /\
  (forall w win now,
     playing (game w) = true -> 0 < driftTimer (game (fst (loop st rnd win now w)))) /\
  (forall win t0 evs, 0 < driftTimer (game (run st rnd (setup st rnd win t0) evs))).
Proof.
  intros Hrnd Hmin Hspan.
  assert (Hfresh : forall n, 0 < resampled_timer st rnd n).
  { intros n. destruct (resampled_timer_range st rnd n Hrnd Hspan). lra. }
  assert (Hframe : forall w win now,
            playing (game w) = true ->
            0 < driftTimer (game (fst (loop st rnd win now w)))).
  { intros w win now Hp. rewrite (loop_driftTimer _ _ _ _ _ Hp).
    destruct (Qle_bool _ 0) eqn:Hle; [apply Hfresh|].
    apply Qle_bool_false, Hle. }
  split; [|split; [exact Hframe|]].
  - intros w win now Hp Hle t. subst t. rewrite (loop_driftTimer _ _ _ _ _ Hp).
    apply Qle_bool_iff in Hle. rewrite Hle.
    destruct (resampled_timer_range st rnd (drawn w) Hrnd Hspan). repeat split; try assumption.
    apply Hfresh.
  - intros win t0 evs.
    apply (run_invariant_any st rnd (fun w => 0 < driftTimer (game w))).
    + intros w repeat key Hw. cbn [upd game]. unfold keydown.
      destruct (negb repeat); exact Hw.
    + intros w key Hw. exact Hw.
    + intros w win' now Hw. destruct (playing (game w)) eqn:Hp; [apply Hframe, Hp|].
      rewrite (loop_dead _ _ _ _ _ Hp). exact Hw.
    + unfold setup. rewrite pickNewDrift_timer. apply Hfresh.
Qed.

Lemma drift_timer_resampled_positive_witness :
  ((forall n, 0 <= rnd_half n /\ rnd_half n < 1) /\
   0 < driftChangeMin settings /\ driftChangeMin settings <= driftChangeMax settings) /\
  0 < driftTimer (game (run settings rnd_half (setup settings rnd_half win_1000 0)
                          trace_hold_h)).
Proof.
  assert (Hrnd : forall n, 0 <= rnd_half n /\ rnd_half n < 1).
  { intros n. unfold rnd_half. split; [discriminate|reflexivity]. }
  assert (Hmin : 0 < driftChangeMin settings) by reflexivity.
  assert (Hspan : driftChangeMin settings <= driftChangeMax settings) by discriminate.
  split; [repeat split; assumption|].
  apply (drift_timer_resampled_positive settings rnd_half Hrnd Hmin Hspan).
Defined.

(** ** Position and velocity *)

Section Motion.
Variables (st : Settings) (rnd : nat -> Q).

Lemma apply_drift_velocity dt w :
  let a := game (apply_drift st rnd dt w) in
  sx a = sx (game w) + driftX a * dt /\ sy a = sy (game w) + driftY a * dt.
Proof. unfold apply_drift. cbv zeta. destruct (Qle_bool _ _); split; reflexivity. Qed.

Lemma wiggle_velocity dt u w :
  let g' := game (wiggle st rnd dt u w) in
  sx g' = (if u then sx (game w)
           else sx (game w) + (rnd (drawn w) - 0.5) * randomShake st * dt) /\
  sy g' = (if u then sy (game w)
           else sy (game w) + (rnd (S (drawn w)) - 0.5) * randomShake st * dt).
Proof. destruct u; split; reflexivity. Qed.

Lemma keyboard_push_velocity dt g :
  let g' := keyboard_push st dt g in
  sx g' = sx g + vx (getKeyDirection g) * pushPower st * dt /\
  sy g' = sy g + vy (getKeyDirection g) * pushPower st * dt.
Proof. split; reflexivity. Qed.

Lemma h_pull_velocity c dt u g :
  let g' := fst (h_pull st c dt u g) in
  sx g' = (if u then sx g + (vx c - x g) * pullPower st * dt else sx g) /\
  sy g' = (if u then sy g + (vy c - y g) * pullPower st * dt else sy g).
Proof.
  unfold h_pull. destruct u; cbv zeta.
  - cbn [hLeft set_hLeft]. destruct (Qeq_bool _ _); split; reflexivity.
  - destruct (hOverheat g); [cbn [hCooling set_hCooling]; destruct (Qeq_bool _ _)|];
      split; reflexivity.
Qed.

Lemma move_friction_motion dt g :
  let g' := move_friction st dt g in
  x g' = x g + sx g * dt /\ y g' = y g + sy g * dt /\
  sx g' = sx g * slowDown st /\ sy g' = sy g * slowDown st.
Proof. repeat split. Qed.

Lemma flags_keys g g' : flags g' = flags g -> keys g' = keys g.
Proof. intros H. exact (f_equal (fun p => snd (fst (fst p))) H). Qed.

Lemma position_xy g g' : position g' = position g -> x g' = x g /\ y g' = y g.
Proof. intros H. split; [exact (f_equal fst H)|exact (f_equal snd H)]. Qed.

Lemma drift_of_xy g g' :
  drift_of g' = drift_of g -> driftX g' = driftX g /\ driftY g' = driftY g.
Proof.
  intros H. split;
    [exact (f_equal (fun p => fst (fst p)) H)|exact (f_equal (fun p => snd (fst p)) H)].
Qed.

Lemma getKeyDirection_keys g g' : keys g' = keys g -> getKeyDirection g' = getKeyDirection g.
Proof. unfold getKeyDirection. intros ->. reflexivity. Qed.

(** One frame of a running game, up to the circle test: the velocity
    gains [dt] times the sum of drift, keyboard push and either the pull
    (H in use) or the wiggle, the position moves by the new velocity, and
    friction scales the velocity afterwards. *)
Lemma moved_motion win now w :
  let dt := dt_of now w in
  let u := usingH (game w) in
  let d := getKeyDirection (game w) in
  let m := game (moved st rnd win now w) in
  exists n,
    let ax := driftX m + vx d * pushPower st +
              (if u then (vx (center win) - x (game w)) * pullPower st
               else (rnd n - 0.5) * randomShake st) in
    let ay := driftY m + vy d * pushPower st +
              (if u then (vy (center win) - y (game w)) * pullPower st
               else (rnd (S n) - 0.5) * randomShake st) in
    x m == x (game w) + (sx (game w) + ax * dt) * dt /\
    y m == y (game w) + (sy (game w) + ay * dt) * dt /\
    sx m == (sx (game w) + ax * dt) * slowDown st /\
    sy m == (sy (game w) + ay * dt) * slowDown st.
Proof.
  intros dt u d m.
  pose proof (moved_drift st rnd win now w) as Hd. fold dt m in Hd.
  set (w0 := upd (set_lastFrame now) w) in *.
  set (w1 := apply_drift st rnd dt w0) in *.
  set (w2 := wiggle st rnd dt u w1).
  set (g3 := keyboard_push st dt (game w2)).
  set (g4 := fst (h_pull st (center win) dt u g3)).
  assert (Hm : m = move_friction st dt g4) by reflexivity.
  destruct (apply_drift_velocity dt w0) as [Hx1 Hy1]. fold w1 in Hx1, Hy1.
  destruct (apply_drift_frame st rnd dt w0) as (_ & Hf1 & Hp1). fold w1 in Hf1, Hp1.
  destruct (wiggle_velocity dt u w1) as [Hx2 Hy2]. fold w2 in Hx2, Hy2.
  destruct (wiggle_frame st rnd dt u w1) as (_ & Hf2 & Hp2 & _). fold w2 in Hf2, Hp2.
  destruct (keyboard_push_velocity dt (game w2)) as [Hx3 Hy3]. fold g3 in Hx3, Hy3.
  destruct (keyboard_push_frame st dt (game w2)) as (_ & Hf3 & Hp3 & _). fold g3 in Hf3, Hp3.
  destruct (h_pull_velocity (center win) dt u g3) as [Hx4 Hy4]. fold g4 in Hx4, Hy4.
  destruct (h_pull_frame st (center win) dt u g3) as (_ & Hp4 & _). fold g4 in Hp4.
  destruct (move_friction_motion dt g4) as (Hx5 & Hy5 & Hsx5 & Hsy5).
  rewrite <- Hm in Hx5, Hy5, Hsx5, Hsy5. clear Hm.
  assert (Hk : getKeyDirection (game w2) = d).
  { apply getKeyDirection_keys.
    rewrite (flags_keys _ _ Hf2), (flags_keys _ _ Hf1). reflexivity. }
  assert (Hp03 : position g3 = position (game w)).
  { rewrite Hp3, Hp2, Hp1. reflexivity. }
  assert (Hp04 : position g4 = position (game w)).
  { rewrite Hp4. exact Hp03. }
  destruct (position_xy _ _ Hp03) as [Hxp3 Hyp3].
  destruct (position_xy _ _ Hp04) as [Hxp Hyp].
  assert (Hsx0 : sx (game w0) = sx (game w)) by reflexivity.
  assert (Hsy0 : sy (game w0) = sy (game w)) by reflexivity.
  destruct (drift_of_xy _ _ Hd) as [HdX HdY].
  exists (drawn w1). cbv zeta.
  rewrite Hx5, Hy5, Hsx5, Hsy5, Hxp, Hyp, Hx4, Hy4, Hxp3, Hyp3, Hx3, Hy3, Hk, Hx2, Hy2,
    Hx1, Hy1, Hsx0, Hsy0.
  clearbody m. rewrite <- HdX, <- HdY.
  generalize (driftX m) (driftY m) (rnd (drawn w1)) (rnd (S (drawn w1)))
    (vx d) (vy d) (x (game w)) (y (game w)) (sx (game w)) (sy (game w)).
  intros. destruct u; repeat split; ring.
Qed.
End Motion.

(** ** The circle test *)

Section Boundary.
Variables (st : Settings) (rnd : nat -> Q).

Lemma out_of_circle_position c r g g' :
  position g' = position g -> out_of_circle st c r g' = out_of_circle st c r g.
Proof.
  intros H. destruct (position_xy _ _ H) as [Hx Hy].
  unfold out_of_circle. rewrite Hx, Hy. reflexivity.
Qed.

(** A running game stays running exactly when the moved blob passes the
    circle test. *)
Lemma loop_playing win now w :
  playing (game w) = true ->
  let g' := game (fst (loop st rnd win now w)) in
  playing g' = negb (out_of_circle st (center win) (radius win) g').
Proof.
  intros Hp. cbv zeta. rewrite (loop_alive _ _ _ _ _ Hp). cbv zeta.
  pose proof (moved_flags st rnd win now w) as Hf.
  assert (Hpm : playing (game (moved st rnd win now w)) = true).
  { rewrite <- Hp. exact (f_equal (fun p => fst (fst (fst p))) Hf). }
  clear Hf. revert Hpm. generalize (moved st rnd win now w) as m. intros m Hpm.
  destruct (out_of_circle st (center win) (radius win) (game m)) eqn:Hout.
  - rewrite (out_of_circle_position _ _ (game m)), Hout; reflexivity.
  - rewrite (out_of_circle_position _ _ (game m)), Hout; [exact Hpm|reflexivity].
Qed.
End Boundary.

(** C5. A frame of a running game ends the session exactly when the
    Euclidean distance from the new position to the arena center is strictly
    greater than [radius - blobSize / 2].  With radius 200, blob size 40 and
    the center at the origin, a position at distance exactly 180 passes the
    test and a position at distance 180.01 fails it. *)
Theorem boundary_check_strict st rnd :
  (forall win now w,
     playing (game w) = true ->
     let g' := game (fst (loop st rnd win now w)) in
     let c := center win in
     playing g' = false <->
     (Q2R (radius win - blobSize st / 2) <
      sqrt (Q2R (x g' - vx c) * Q2R (x g' - vx c) +
            Q2R (y g' - vy c) * Q2R (y g' - vy c)))%R) /\
  (forall g,
     blobSize st == 40 -> x g * x g + y g * y g == 180 * 180 ->
     out_of_circle st origin 200 g = false) /\
  (forall g,
     blobSize st == 40 -> x g * x g + y g * y g == 180.01 * 180.01 ->
     out_of_circle st origin 200 g = true).
Proof.
  split; [|split].
  - intros win now w Hp g' c. subst g' c.
    rewrite (loop_playing st rnd win now w Hp), negb_false_iff.
    unfold out_of_circle. apply hypot_gt_sqrt.
  - intros g Hb Hd. unfold out_of_circle, hypot_gt, origin. cbn [vx vy].
    apply orb_false_iff. split; apply Qlt_bool_false.
    + rewrite Hb. discriminate.
    + assert (E : (x g - 0) * (x g - 0) + (y g - 0) * (y g - 0) == x g * x g + y g * y g)
        by ring.
      rewrite Hb, E, Hd. discriminate.
  - intros g Hb Hd. unfold out_of_circle, hypot_gt, origin. cbn [vx vy].
    apply orb_true_iff. right. apply Qlt_bool_iff.
    assert (E : (x g - 0) * (x g - 0) + (y g - 0) * (y g - 0) == x g * x g + y g * y g)
      by ring.
    rewrite Hb, E, Hd. reflexivity.
Qed.

Lemma boundary_check_strict_witness :
  out_of_circle settings origin 200 (blob_at 108 144) = false /\
  out_of_circle settings origin 200 (blob_at 180.01 0) = true.
Proof.
  destruct (boundary_check_strict settings rnd_half) as (_ & Hin & Hout).
  split; [apply Hin|apply Hout]; reflexivity.
Defined.

(** ** Whole frames *)

Section WholeFrames.
Variables (st : Settings) (rnd : nat -> Q).

(** What a frame of a running game leaves of the moved state. *)
Lemma loop_fields win now w :
  playing (game w) = true ->
  let m := game (moved st rnd win now w) in
  let g' := game (fst (loop st rnd win now w)) in
  x g' = x m /\ y g' = y m /\ sx g' = sx m /\ sy g' = sy m /\
  driftX g' = driftX m /\ driftY g' = driftY m /\
  keys g' = keys (game w) /\ lastFrame g' = now /\
  time g' = (if playing g' then time (game w) + dt_of now w else time (game w)).
Proof.
  intros Hp. cbv zeta. rewrite (loop_alive _ _ _ _ _ Hp). cbv zeta.
  pose proof (moved_flags st rnd win now w) as Hf. rewrite Hp in Hf.
  revert Hf. generalize (moved st rnd win now w) as m. intros m Hf.
  assert (Hpm : playing (game m) = true) by exact (f_equal (fun p => fst (fst (fst p))) Hf).
  assert (Hkm : keys (game m) = keys (game w))
    by exact (f_equal (fun p => snd (fst (fst p))) Hf).
  assert (Htm : time (game m) = time (game w)) by exact (f_equal (fun p => snd (fst p)) Hf).
  assert (Hlm : lastFrame (game m) = now) by exact (f_equal snd Hf).
  destruct (out_of_circle _ _ _ _); fields; rewrite ?Hpm, ?Htm; repeat split; assumption.
Qed.

(** Two frames of a game that is over: only the second timestamp is
    left behind. *)
Lemma loop_dead_twice win now win' now' w :
  playing (game w) = false ->
  loop st rnd win' now' (fst (loop st rnd win now w)) = (upd (set_lastFrame now') w, []).
Proof.
  intros Hp. rewrite (loop_dead st rnd win now w Hp). cbn [fst].
  rewrite loop_dead by exact Hp. reflexivity.
Qed.
End WholeFrames.

(** C3 fails as stated: the stored timestamp of the previous frame is
    assigned before the test of [playing], so a frame of a finished game
    changes [lastFrame]. *)
Lemma dead_frame_changes_lastFrame :
  playing (game dead_world) = false /\
  lastFrame (game dead_world) = 2000 /\
  lastFrame (game (fst (loop settings rnd_zero win_1000 3000 dead_world))) = 3000 /\
  fst (loop settings rnd_zero win_1000 3000 dead_world) <> dead_world.
Proof.
  assert (Hp : playing (game dead_world) = false) by (vm_compute; reflexivity).
  assert (Hl : lastFrame (game dead_world) = 2000) by (vm_compute; reflexivity).
  rewrite (loop_dead settings rnd_zero win_1000 3000 dead_world Hp). cbn [fst].
  repeat split; try assumption.
  intros Heq. apply (f_equal (fun w => lastFrame (game w))) in Heq.
  cbn [game upd lastFrame set_lastFrame] in Heq. rewrite Hl in Heq. discriminate.
Qed.

(** C3, amended.  When the game is over, a call of [loop] changes no field
    of the state except [lastFrame], which becomes the timestamp of the
    call, and writes nothing to the page; calls can be repeated, and a
    repeated call with the same timestamp changes nothing any more. *)
Theorem dead_loop_only_stamps_lastFrame st rnd win now w :
  playing (game w) = false ->
  loop st rnd win now w = (upd (set_lastFrame now) w, []) /\
  (forall win' now',
     loop st rnd win' now' (fst (loop st rnd win now w)) = (upd (set_lastFrame now') w, [])) /\
  loop st rnd win now (fst (loop st rnd win now w)) = loop st rnd win now w.
Proof.
  intros Hp. split; [apply loop_dead, Hp|]. split.
  - intros win' now'. apply loop_dead_twice, Hp.
  - rewrite loop_dead_twice by exact Hp. symmetry. apply loop_dead, Hp.
Qed.

Lemma dead_loop_only_stamps_lastFrame_witness :
  playing (game dead_world) = false /\
  loop settings rnd_zero win_1000 3000 dead_world
  = (upd (set_lastFrame 3000) dead_world, []).
Proof.
  assert (Hp : playing (game dead_world) = false) by (vm_compute; reflexivity).
  split; [exact Hp|].
  exact (proj1 (dead_loop_only_stamps_lastFrame settings rnd_zero win_1000 3000 dead_world Hp)).
Defined.

(** C4 fails as stated: [loop] has no guard on [dt].  In the running sample
    game a frame with the timestamp of the previous one ([dt = 0]) still
    applies friction to the velocity, and a frame with an earlier timestamp
    ([dt < 0]) takes elapsed time back. *)
Lemma nonpositive_dt_frame_changes_state :
  playing (game moving_world) = true /\
  (dt_of 1000 moving_world == 0 /\
   ~ sx (game (fst (loop settings rnd_zero win_1000 1000 moving_world)))
     == sx (game moving_world)) /\
  (dt_of 0 moving_world < 0 /\
   time (game (fst (loop settings rnd_zero win_1000 0 moving_world)))
   < time (game moving_world)).
Proof.
  split; [vm_compute; reflexivity|]. split; split.
  - vm_compute. reflexivity.
  - vm_compute. discriminate.
  - vm_compute. reflexivity.
  - vm_compute. reflexivity.
Qed.

(** C4, amended.  A frame of a running game with [dt <= 0] is not skipped:
    it runs the same update and stores its timestamp.  With [dt = 0] the
    position and the elapsed time keep their values while the velocity is
    still multiplied by [slowDown]; with [dt < 0] the elapsed time of a game
    that is still running afterwards has gone down by [|dt|]. *)
Theorem nonpositive_dt_is_not_guarded st rnd win now w :
  playing (game w) = true -> dt_of now w <= 0 ->
  let g' := game (fst (loop st rnd win now w)) in
  lastFrame g' = now /\
  (dt_of now w == 0 ->
   x g' == x (game w) /\ y g' == y (game w) /\ time g' == time (game w) /\
   sx g' == sx (game w) * slowDown st /\ sy g' == sy (game w) * slowDown st) /\
  (dt_of now w < 0 -> playing g' = true ->
   time g' == time (game w) + dt_of now w /\ time g' < time (game w)).
Proof.
  intros Hp _ g'.
  destruct (loop_fields st rnd win now w Hp)
    as (Hx & Hy & Hsx & Hsy & _ & _ & _ & Hl & Ht).
  fold g' in Hx, Hy, Hsx, Hsy, Hl, Ht.
  destruct (moved_motion st rnd win now w) as (n & Hm). cbv zeta in Hm.
  destruct Hm as (Hmx & Hmy & Hmsx & Hmsy).
  rewrite <- Hx in Hmx. rewrite <- Hy in Hmy. rewrite <- Hsx in Hmsx. rewrite <- Hsy in Hmsy.
  clear Hx Hy Hsx Hsy. clearbody g'.
  split; [exact Hl|]. split.
  - intros Hdt. rewrite Hdt in Hmx, Hmy, Hmsx, Hmsy.
    repeat split.
    + rewrite Hmx. ring.
    + rewrite Hmy. ring.
    + rewrite Ht. destruct (playing g'); [rewrite Hdt; ring|reflexivity].
    + rewrite Hmsx. ring.
    + rewrite Hmsy. ring.
  - intros Hdt Hp'. rewrite Hp' in Ht. rewrite Ht. split; [reflexivity|].
    generalize dependent (dt_of now w). intros dt ? ?. lra.
Qed.

Lemma nonpositive_dt_is_not_guarded_witness :
  (playing (game moving_world) = true /\ dt_of 1000 moving_world <= 0) /\
  let g' := game (fst (loop settings rnd_zero win_1000 1000 moving_world)) in
  lastFrame g' = 1000 /\
  (dt_of 1000 moving_world == 0 ->
   x g' == x (game moving_world) /\ y g' == y (game moving_world) /\
   time g' == time (game moving_world) /\
   sx g' == sx (game moving_world) * slowDown settings /\
   sy g' == sy (game moving_world) * slowDown settings) /\
  (dt_of 1000 moving_world < 0 -> playing g' = true ->
   time g' == time (game moving_world) + dt_of 1000 moving_world /\
   time g' < time (game moving_world)).
Proof.
  assert (Hp : playing (game moving_world) = true) by (vm_compute; reflexivity).
  assert (Hdt : dt_of 1000 moving_world <= 0) by (vm_compute; discriminate).
  split; [split; assumption|].
  exact (nonpositive_dt_is_not_guarded settings rnd_zero win_1000 1000 moving_world Hp Hdt).
Defined.

(** ** A blob that nothing pushes *)

Section AtRest.
Variables (st : Settings) (rnd : nat -> Q).

Lemma apply_drift_drift dt w :
  let a := game (apply_drift st rnd dt w) in
  driftX a = (if Qle_bool (driftTimer (game w) - dt) 0
              then (rnd (drawn w) * 2 - 1) * driftPower st else driftX (game w)) /\
  driftY a = (if Qle_bool (driftTimer (game w) - dt) 0
              then (rnd (S (drawn w)) * 2 - 1) * driftPower st else driftY (game w)).
Proof.
  unfold apply_drift. cbv zeta. fields.
  destruct (Qle_bool (driftTimer (game w) - dt) 0); split; reflexivity.
Qed.

Lemma no_keys_no_pull g : keys g = [] -> usingH g = false.
Proof. unfold usingH. intros ->. reflexivity. Qed.

Lemma no_keys_no_push g : keys g = [] -> getKeyDirection g = {| vx := 0; vy := 0 |}.
Proof. unfold getKeyDirection. intros ->. reflexivity. Qed.

Lemma at_center_in_circle c r g :
  blobSize st / 2 <= r -> x g == vx c -> y g == vy c -> out_of_circle st c r g = false.
Proof.
  intros Hr Hx Hy. unfold out_of_circle, hypot_gt.
  revert Hr. generalize (blobSize st / 2) as b. intros b Hr.
  apply orb_false_iff. split; apply Qlt_bool_false.
  - lra.
  - rewrite Hx, Hy. generalize (r - b) as t. intros t.
    setoid_replace (vx c - vx c) with 0 using relation Qeq by ring.
    setoid_replace (vy c - vy c) with 0 using relation Qeq by ring.
    nra.
Qed.

Hypothesis no_drift : driftPower st == 0.
Hypothesis no_wiggle : randomShake st == 0.

(** A frame leaves a blob at rest where it is and counts its [dt]. *)
Lemma at_rest_frame win now w :
  blobSize st / 2 <= radius win ->
  at_rest win (game w) ->
  let g' := game (fst (loop st rnd win now w)) in
  at_rest win g' /\ time g' = time (game w) + dt_of now w /\ lastFrame g' = now.
Proof.
  intros Hr (Hp & Hk & Hsx & Hsy & HdX & HdY & Hx & Hy) g'.
  destruct (loop_fields st rnd win now w Hp)
    as (Hx' & Hy' & Hsx' & Hsy' & HdX' & HdY' & Hk' & Hl' & Ht').
  pose proof (loop_playing st rnd win now w Hp) as Hp'.
  fold g' in Hx', Hy', Hsx', Hsy', HdX', HdY', Hk', Hl', Ht', Hp'. cbv zeta in Hp'.
  destruct (moved_motion st rnd win now w) as (n & Hm). cbv zeta in Hm.
  rewrite (no_keys_no_pull _ Hk), (no_keys_no_push _ Hk) in Hm. cbn [vx vy] in Hm.
  destruct Hm as (Hmx & Hmy & Hmsx & Hmsy).
  pose proof (moved_drift st rnd win now w) as Hd.
  destruct (drift_of_xy _ _ Hd) as [HmdX HmdY]. clear Hd.
  destruct (apply_drift_drift (dt_of now w) (upd (set_lastFrame now) w)) as [HaX HaY].
  cbn [upd game drawn driftTimer driftX driftY set_lastFrame] in HaX, HaY.
  rewrite HaX in HmdX. rewrite HaY in HmdY. clear HaX HaY.
  assert (HX0 : driftX g' == 0).
  { rewrite HdX', HmdX. destruct (Qle_bool _ 0); [rewrite no_drift; ring|exact HdX]. }
  assert (HY0 : driftY g' == 0).
  { rewrite HdY', HmdY. destruct (Qle_bool _ 0); [rewrite no_drift; ring|exact HdY]. }
  rewrite <- HdX' in Hmx, Hmsx. rewrite <- HdY' in Hmy, Hmsy.
  rewrite <- Hx' in Hmx. rewrite <- Hy' in Hmy.
  rewrite <- Hsx' in Hmsx. rewrite <- Hsy' in Hmsy.
  clear Hx' Hy' Hsx' Hsy' HdX' HdY' HmdX HmdY.
  rewrite HX0, Hsx, no_wiggle in Hmx, Hmsx. rewrite HY0, Hsy, no_wiggle in Hmy, Hmsy.
  assert (Hxc : x g' == vx (center win)) by (rewrite Hmx, Hx; ring).
  assert (Hyc : y g' == vy (center win)) by (rewrite Hmy, Hy; ring).
  rewrite (at_center_in_circle _ _ _ Hr Hxc Hyc) in Hp'. cbn [negb] in Hp'.
  rewrite Hp' in Ht'.
  split; [|split; assumption].
  unfold at_rest. split; [exact Hp'|]. split; [rewrite Hk'; exact Hk|].
  split; [rewrite Hmsx; ring|]. split; [rewrite Hmsy; ring|].
  repeat split; assumption.
Qed.

Lemma setup_at_rest win t0 : at_rest win (game (setup st rnd win t0)).
Proof.
  unfold at_rest, setup, pickNewDrift, random, upd, initial_game, center.
  cbn [game drawn playing keys sx sy driftX driftY x y vx vy
       set_driftX set_driftY set_driftTimer].
  repeat split; try reflexivity; rewrite no_drift; ring.
Qed.

(** The same for a frame that comes one second after the last. *)
Lemma at_rest_second win now w :
  blobSize st / 2 <= radius win ->
  at_rest win (game w) -> lastFrame (game w) + 1000 == now ->
  let g' := game (handle st rnd w (Frame win now)) in
  at_rest win g' /\ time g' == time (game w) + 1 /\ lastFrame g' = now.
Proof.
  intros Hr Hrest Hnow g'.
  destruct (at_rest_frame win now w Hr Hrest) as (Hrest' & Ht & Hl).
  split; [exact Hrest'|]. split; [|exact Hl].
  subst g'. cbn [handle]. rewrite Ht. unfold dt_of. rewrite <- Hnow. field.
Qed.
End AtRest.

(** C6 fails as stated: without keys and without drift the wiggle still
    pushes the blob.  With every random draw 0 the sample game is over
    during the third second, away from the center, with two seconds
    counted.  And in a window whose circle is smaller than the blob the
    game is over in the first frame even without wiggle. *)
Lemma five_seconds_with_wiggle_leave_center :
  (driftPower settings_no_drift = 0 /\
   playing (game wiggled_world) = false /\
   ~ x (game wiggled_world) == innerWidth win_1000 / 2 /\
   time (game wiggled_world) == 2) /\
  (driftPower settings_calm = 0 /\
   playing (game cramped_world) = false /\
   time (game cramped_world) == 0).
Proof.
  split.
  - split; [reflexivity|]. split; [vm_compute; reflexivity|].
    split; [vm_compute; discriminate|vm_compute; reflexivity].
  - split; [reflexivity|]. split; vm_compute; reflexivity.
Qed.

(** C6, amended.  With the drift and the wiggle both configured to 0, in a
    window whose circle has room for the blob ([blobSize / 2 <= radius]),
    with no keys held, five frames one second apart after [setup] leave the
    blob exactly at the center, the elapsed time at 5 and the game running. *)
Theorem five_seconds_at_rest st rnd win t0 :
  driftPower st == 0 -> randomShake st == 0 -> blobSize st / 2 <= radius win ->
  let g := game (run st rnd (setup st rnd win t0) (five_seconds win t0)) in
  x g == innerWidth win / 2 /\ y g == innerHeight win / 2 /\
  time g == 5 /\ playing g = true.
Proof.
  intros Hdrift Hwiggle Hr. cbv zeta. unfold five_seconds.
  pose proof (setup_at_rest st rnd Hdrift win t0) as H0.
  assert (Ht0 : time (game (setup st rnd win t0)) = 0) by reflexivity.
  assert (Hl0 : lastFrame (game (setup st rnd win t0)) = t0) by reflexivity.
  revert H0 Ht0 Hl0. generalize (setup st rnd win t0) as w0. intros w0 H0 Ht0 Hl0.
  rewrite !run_cons.
  destruct (at_rest_second st rnd Hdrift Hwiggle win (t0 + 1000) w0 Hr H0)
    as (H1 & Ht1 & Hl1); [rewrite Hl0; reflexivity|].
  revert H1 Ht1 Hl1. generalize (handle st rnd w0 (Frame win (t0 + 1000))) as w1.
  intros w1 H1 Ht1 Hl1.
  destruct (at_rest_second st rnd Hdrift Hwiggle win (t0 + 2000) w1 Hr H1)
    as (H2 & Ht2 & Hl2); [rewrite Hl1; ring|].
  revert H2 Ht2 Hl2. generalize (handle st rnd w1 (Frame win (t0 + 2000))) as w2.
  intros w2 H2 Ht2 Hl2.
  destruct (at_rest_second st rnd Hdrift Hwiggle win (t0 + 3000) w2 Hr H2)
    as (H3 & Ht3 & Hl3); [rewrite Hl2; ring|].
  revert H3 Ht3 Hl3. generalize (handle st rnd w2 (Frame win (t0 + 3000))) as w3.
  intros w3 H3 Ht3 Hl3.
  destruct (at_rest_second st rnd Hdrift Hwiggle win (t0 + 4000) w3 Hr H3)
    as (H4 & Ht4 & Hl4); [rewrite Hl3; ring|].
  revert H4 Ht4 Hl4. generalize (handle st rnd w3 (Frame win (t0 + 4000))) as w4.
  intros w4 H4 Ht4 Hl4.
  destruct (at_rest_second st rnd Hdrift Hwiggle win (t0 + 5000) w4 Hr H4)
    as (H5 & Ht5 & _); [rewrite Hl4; ring|].
  revert H5 Ht5. generalize (handle st rnd w4 (Frame win (t0 + 5000))) as w5.
  intros w5 H5 Ht5. cbn [run foldl].
  destruct H5 as (Hp & _ & _ & _ & _ & _ & Hx & Hy).
  split; [exact Hx|]. split; [exact Hy|]. split; [|exact Hp].
  rewrite Ht5, Ht4, Ht3, Ht2, Ht1, Ht0. ring.
Qed.

Lemma five_seconds_at_rest_witness :
  (driftPower settings_calm == 0 /\ randomShake settings_calm == 0 /\
   blobSize settings_calm / 2 <= radius win_1000) /\
  let g := game (run settings_calm rnd_zero (setup settings_calm rnd_zero win_1000 0)
                   (five_seconds win_1000 0)) in
  x g == innerWidth win_1000 / 2 /\ y g == innerHeight win_1000 / 2 /\
  time g == 5 /\ playing g = true.
Proof.
  assert (Hd : driftPower settings_calm == 0) by reflexivity.
  assert (Hw : randomShake settings_calm == 0) by reflexivity.
  assert (Hr : blobSize settings_calm / 2 <= radius win_1000) by (vm_compute; discriminate).
  split; [repeat split; assumption|].
  exact (five_seconds_at_rest settings_calm rnd_zero win_1000 0 Hd Hw Hr).
Defined.

(** ** The keyboard *)

Section KeyDirection.
Variable m : gmap string Vec.

Lemma getKeyDirection_in_skip k rest :
  ~ eligible m k -> getKeyDirection_in m (k :: rest) = getKeyDirection_in m rest.
Proof.
  intros Hk. cbn [getKeyDirection_in].
  destruct (String.eqb k "h") eqn:Hh; [reflexivity|].
  destruct (m !! k) as [v|] eqn:Hm; [|reflexivity].
  exfalso. apply Hk. split; [|rewrite Hm; eauto].
  apply String.eqb_neq, Hh.
Qed.

Lemma getKeyDirection_in_hit k v rest :
  k <> "h"%string -> m !! k = Some v -> getKeyDirection_in m (k :: rest) = v.
Proof.
  intros Hh Hm. cbn [getKeyDirection_in].
  apply String.eqb_neq in Hh. rewrite Hh, Hm. reflexivity.
Qed.

Lemma getKeyDirection_in_first (ks : list string) i k v :
  ks !! i = Some k -> k <> "h"%string -> m !! k = Some v ->
  (forall j k', (j < i)%nat -> ks !! j = Some k' -> ~ eligible m k') ->
  getKeyDirection_in m ks = v.
Proof.
  revert i. induction ks as [|k0 ks IH]; intros i Hi Hh Hm Hbefore; [discriminate|].
  destruct i as [|i].
  - injection Hi as ->. apply getKeyDirection_in_hit; assumption.
  - rewrite getKeyDirection_in_skip.
    + apply (IH i); try assumption.
      intros j k' Hj Hk'. apply (Hbefore (S j) k'); [lia|exact Hk'].
    + apply (Hbefore 0%nat k0); [lia|reflexivity].
Qed.

Lemma getKeyDirection_in_none (ks : list string) :
  (forall k, k ∈ ks -> ~ eligible m k) ->
  getKeyDirection_in m ks = {| vx := 0; vy := 0 |}.
Proof.
  induction ks as [|k0 ks IH]; intros Hnone; [reflexivity|].
  rewrite getKeyDirection_in_skip.
  - apply IH. intros k Hk. apply Hnone. right. exact Hk.
  - apply Hnone. left.
Qed.
End KeyDirection.

(** C8. [getKeyDirection] answers with the vector of the first held key, in
    the iteration order of the key set, that is not H and is in the map; if
    no held key is both, it answers with the zero vector. *)
Theorem getKeyDirection_first_eligible g :
  (forall i k v,
     keys g !! i = Some k -> k <> "h"%string -> directions !! k = Some v ->
     (forall j k', (j < i)%nat -> keys g !! j = Some k' -> ~ eligible directions k') ->
     getKeyDirection g = v) /\
  ((forall k, k ∈ keys g -> ~ eligible directions k) ->
   getKeyDirection g = {| vx := 0; vy := 0 |}).
Proof.
  unfold getKeyDirection. generalize directions as m. intros m. split.
  - intros i k v. apply getKeyDirection_in_first.
  - apply getKeyDirection_in_none.
Qed.

Lemma getKeyDirection_first_eligible_witness :
  directions !! "d"%string = Some (key_vec 10 3 1 2) /\
  getKeyDirection game_with_keys = key_vec 10 3 1 2.
Proof.
  assert (Hd : directions !! "d"%string = Some (key_vec 10 3 1 2))
    by (vm_compute; reflexivity).
  split; [exact Hd|].
  refine (proj1 (getKeyDirection_first_eligible game_with_keys) 2%nat "d"%string _ _ _ Hd _).
  - reflexivity.
  - discriminate.
  - intros j k' Hj Hk' [Hh [v Hv]].
    destruct j as [|[|j]]; [| |lia].
    + injection Hk' as <-. apply Hh. reflexivity.
    + injection Hk' as <-. vm_compute in Hv. discriminate.
Defined.

Section KeyMap.
Variables widest nrows : nat.

(** One row: a key that is not in the row keeps what the map had, and a
    key of the row gets the vector of its last column. *)
Lemma forEach_row (r : nat) (cs : list string) :
  forall (c0 : nat) (m : gmap string Vec),
    let m' := forEach (fun key c map => <[ key := key_vec widest nrows r c ]> map) cs c0 m in
    (forall k, (forall c, cs !! c <> Some k) -> m' !! k = m !! k) /\
    (forall c k, cs !! c = Some k -> (forall c', (c < c')%nat -> cs !! c' <> Some k) ->
                 m' !! k = Some (key_vec widest nrows r (c0 + c))).
Proof.
  induction cs as [|a cs IH]; intros c0 m; cbn [forEach].
  - split; [reflexivity|]. intros c k Hc. discriminate.
  - destruct (IH (S c0) (<[ a := key_vec widest nrows r c0 ]> m)) as [IHout IHin].
    split.
    + intros k Hk. rewrite IHout.
      * apply lookup_insert_ne. intros ->. apply (Hk 0%nat). reflexivity.
      * intros c. apply (Hk (S c)).
    + intros [|c] k Hc Hlast.
      * injection Hc as ->. rewrite IHout.
        -- rewrite Nat.add_0_r. apply lookup_insert_eq.
        -- intros c. apply (Hlast (S c)). lia.
      * rewrite (IHin c k Hc).
        -- rewrite Nat.add_succ_r. reflexivity.
        -- intros c' Hc'. apply (Hlast (S c')). lia.
Qed.

(** All rows. *)
Lemma forEach_rows (rows : list string) :
  forall (r0 : nat) (m : gmap string Vec),
    let m' := forEach (fun row r map =>
                forEach (fun key c map => <[ key := key_vec widest nrows r c ]> map)
                  (spread row) 0%nat map) rows r0 m in
    (forall k, (forall r c, ~ char_at rows r c k) -> m' !! k = m !! k) /\
    (forall r c k, char_at rows r c k ->
                   (forall r' c', later r c r' c' -> ~ char_at rows r' c' k) ->
                   m' !! k = Some (key_vec widest nrows (r0 + r) c)).
Proof.
  induction rows as [|row rows IH]; intros r0 m; cbn [forEach].
  - split; [reflexivity|]. intros r c k (row & Hrow & _). discriminate.
  - destruct (forEach_row r0 (spread row) 0%nat m) as [Hout Hin].
    set (m1 := forEach _ (spread row) 0%nat m) in *.
    destruct (IH (S r0) m1) as [IHout IHin].
    split.
    + intros k Hk. rewrite IHout.
      * apply Hout. intros c Hc. apply (Hk 0%nat c). exists row. split; [reflexivity|exact Hc].
      * intros r c (row' & Hrow' & Hc). apply (Hk (S r) c). exists row'. split; assumption.
    + intros [|r] c k (row' & Hrow' & Hc) Hlast.
      * injection Hrow' as <-. rewrite IHout.
        -- rewrite Nat.add_0_r. apply (Hin c k Hc).
           intros c' Hc' Hk'. apply (Hlast 0%nat c'); [right; split; [reflexivity|exact Hc']|].
           exists row. split; [reflexivity|exact Hk'].
        -- intros r c' (row' & Hrow' & Hc'). apply (Hlast (S r) c'); [left; lia|].
           exists row'. split; assumption.
      * rewrite (IHin r c k).
        -- rewrite Nat.add_succ_r. reflexivity.
        -- exists row'. split; assumption.
        -- intros r' c' Hlater (row'' & Hrow'' & Hc').
           apply (Hlast (S r') c').
           ++ destruct Hlater as [Hlt|[-> Hlt]]; [left; lia|right; split; [reflexivity|exact Hlt]].
           ++ exists row''. split; assumption.
Qed.
End KeyMap.

Lemma widest_of_bound (rows : list string) row :
  row ∈ rows -> (String.length row <= widest_of rows)%nat.
Proof.
  unfold widest_of. induction 1 as [row rows|row row' rows _ IH];
    cbn [map max_list max_list_with]; cbv [Datatypes.id] in *; lia.
Qed.

Lemma widest_of_attained (rows : list string) :
  rows <> [] -> exists row, row ∈ rows /\ String.length row = widest_of rows.
Proof.
  unfold widest_of. induction rows as [|row rows IH]; [congruence|]. intros _.
  change (max_list (map String.length (row :: rows)))
    with (Nat.max (String.length row) (max_list (map String.length rows))).
  destruct rows as [|row' rows].
  - exists row. split; [left|]. cbn. lia.
  - destruct IH as (best & Hbest & Hlen); [discriminate|].
    destruct (Nat.max_spec (String.length row) (max_list (map String.length (row' :: rows))))
      as [[_ ->]|[_ ->]].
    + exists best. split; [right; exact Hbest|exact Hlen].
    + exists row. split; [left|reflexivity].
Qed.

(** C7 fails as stated when a key occurs twice in the layout: [map.set]
    overwrites, so the first occurrence does not get its own vector. *)
Lemma repeated_key_takes_last_position :
  char_at ["aa"; "bb"]%string 0 0 "a"%string /\
  makeKeyMap ["aa"; "bb"]%string !! "a"%string = Some {| vx := 1; vy := -1 |} /\
  makeKeyMap ["aa"; "bb"]%string !! "a"%string <> Some (key_vec 2 2 0 0).
Proof.
  split; [exists "aa"%string; split; reflexivity|].
  split; [vm_compute; reflexivity|].
  vm_compute. discriminate.
Qed.

(** C7, amended.  In a layout of at least two rows whose widest row has at
    least two keys, [makeKeyMap] maps every key to the vector of the last
    place (row [r], column [c], in reading order) where it stands:
    [x = c / (widest - 1) * 2 - 1] and [y = r / (rows - 1) * 2 - 1], with
    [widest] the greatest row length; for a layout without repeated keys
    this is the place of the key.  For the layout "ab", "cd" the four
    vectors are the corners of the square. *)
Theorem makeKeyMap_last_position :
  (forall (rows : list string) r c k,
     (2 <= length rows)%nat -> (2 <= widest_of rows)%nat ->
     char_at rows r c k ->
     (forall r' c', later r c r' c' -> ~ char_at rows r' c' k) ->
     makeKeyMap rows !! k =
       Some {| vx := (num c / (num (widest_of rows) - 1)) * 2 - 1;
               vy := (num r / (num (length rows) - 1)) * 2 - 1 |}) /\
  (forall (rows : list string),
     (forall row, row ∈ rows -> (String.length row <= widest_of rows)%nat) /\
     (rows <> [] -> exists row, row ∈ rows /\ String.length row = widest_of rows)) /\
  (makeKeyMap ["ab"; "cd"]%string !! "a"%string = Some {| vx := -1; vy := -1 |} /\
   makeKeyMap ["ab"; "cd"]%string !! "b"%string = Some {| vx := 1; vy := -1 |} /\
   makeKeyMap ["ab"; "cd"]%string !! "c"%string = Some {| vx := -1; vy := 1 |} /\
   makeKeyMap ["ab"; "cd"]%string !! "d"%string = Some {| vx := 1; vy := 1 |}).
Proof.
  split; [|split].
  - intros rows r c k _ _ Hat Hlast. unfold makeKeyMap. cbv zeta.
    destruct (forEach_rows (widest_of rows) (length rows) rows 0%nat ∅) as [_ Hin].
    cbv zeta in Hin. rewrite (Hin r c k Hat Hlast). reflexivity.
  - intros rows. split; [apply widest_of_bound|apply widest_of_attained].
  - repeat split; vm_compute; reflexivity.
Qed.

Lemma makeKeyMap_last_position_witness :
  ((2 <= length rows)%nat /\ (2 <= widest_of rows)%nat /\ char_at rows 1 5 "h"%string) /\
  directions !! "h"%string =
    Some {| vx := (num 5 / (num (widest_of rows) - 1)) * 2 - 1;
            vy := (num 1 / (num (length rows) - 1)) * 2 - 1 |}.
Proof.
  assert (Hrows : (2 <= length rows)%nat) by (cbn; lia).
  assert (Hwide : (2 <= widest_of rows)%nat) by (cbn; lia).
  assert (Hat : char_at rows 1 5 "h"%string) by (exists "asdfghjkl"%string; split; reflexivity).
  split; [repeat split; assumption|].
  refine (proj1 makeKeyMap_last_position rows 1%nat 5%nat "h"%string Hrows Hwide Hat _).
  intros r' c' Hlater (row & Hrow & Hc).
  destruct r' as [|[|[|r']]]; cbn in Hrow; try discriminate.
  - destruct Hlater as [Hlt|[Heq _]]; lia.
  - injection Hrow as <-. destruct Hlater as [Hlt|[_ Hlt]]; [lia|].
    do 6 (destruct c' as [|c']; [lia|]).
    do 3 (destruct c' as [|c']; [cbn in Hc; discriminate|]).
    cbn in Hc. discriminate.
  - injection Hrow as <-.
    do 7 (destruct c' as [|c']; [cbn in Hc; discriminate|]).
    cbn in Hc. discriminate.
Defined.

(** * Further properties of the script *)

(** ** The set of held keys *)

Lemma keys_has_elem_of (ks : list string) k : keys_has ks k = true <-> k ∈ ks.
Proof.
  unfold keys_has. rewrite existsb_exists. split.
  - intros (k' & Hin & Heq). apply String.eqb_eq in Heq. subst k'.
    apply list_elem_of_In, Hin.
  - intros Hin. exists k. split; [apply list_elem_of_In, Hin|apply String.eqb_refl].
Qed.

Lemma keys_add_elem_of k k' (ks : list string) :
  k' ∈ keys_add k ks <-> k' = k \/ k' ∈ ks.
Proof.
  unfold keys_add. destruct (keys_has ks k) eqn:Hhas.
  - apply keys_has_elem_of in Hhas. split; [auto|]. intros [->|H]; assumption.
  - rewrite elem_of_app, list_elem_of_singleton. tauto.
Qed.

Lemma keys_delete_elem_of k k' (ks : list string) :
  k' ∈ keys_delete k ks <-> k' <> k /\ k' ∈ ks.
Proof.
  unfold keys_delete. rewrite !list_elem_of_In, filter_In, negb_true_iff.
  rewrite String.eqb_neq. split; intros [H1 H2]; split; auto.
Qed.

Lemma keys_add_NoDup k (ks : list string) : NoDup ks -> NoDup (keys_add k ks).
Proof.
  intros Hnd. unfold keys_add. destruct (keys_has ks k) eqn:Hhas; [exact Hnd|].
  apply NoDup_app. split; [exact Hnd|]. split; [|apply NoDup_singleton].
  intros k' Hin Hk'. apply list_elem_of_singleton in Hk'. subst k'.
  apply keys_has_elem_of in Hin. congruence.
Qed.

Lemma keys_delete_NoDup k (ks : list string) : NoDup ks -> NoDup (keys_delete k ks).
Proof.
  rewrite !NoDup_ListNoDup. unfold keys_delete. apply List.NoDup_filter.
Qed.

Lemma toLowerCase_ascii_idempotent ch :
  toLowerCase_ascii (toLowerCase_ascii ch) = toLowerCase_ascii ch.
Proof. destruct ch as [[] [] [] [] [] [] [] []]; reflexivity. Qed.

Lemma toLowerCase_idempotent s : toLowerCase (toLowerCase s) = toLowerCase s.
Proof.
  induction s as [|ch s IH]; [reflexivity|].
  cbn [toLowerCase]. rewrite toLowerCase_ascii_idempotent, IH. reflexivity.
Qed.

(** X1.  Pressing a key puts its lower-case name into the set, an auto-repeat
    changes nothing, releasing a key takes its lower-case name out, and no
    other name enters or leaves. *)
Theorem key_events_track_one_key key g :
  let k := toLowerCase key in
  (k ∈ keys (keydown false key g)) /\
  keydown true key g = g /\
  (k ∉ keys (keyup key g)) /\
  (forall k', k' <> k ->
     (k' ∈ keys (keydown false key g) <-> k' ∈ keys g) /\
     (k' ∈ keys (keyup key g) <-> k' ∈ keys g)).
Proof.
  intros k. unfold keydown, keyup. cbn [negb keys set_keys]. fold k.
  split; [apply keys_add_elem_of; left; reflexivity|].
  split; [reflexivity|].
  split; [rewrite keys_delete_elem_of; intros [Hne _]; congruence|].
  intros k' Hne. rewrite keys_add_elem_of, keys_delete_elem_of. tauto.
Qed.

(** X2.  Pressing a key that was not held and releasing it again gives back the
    set as it was, in the same order; pressing a key that is held already
    leaves the set and its order alone. *)
Theorem press_and_release_restores_keys key g :
  ((toLowerCase key ∉ keys g) -> keys (keyup key (keydown false key g)) = keys g) /\
  ((toLowerCase key ∈ keys g) -> keys (keydown false key g) = keys g).
Proof.
  unfold keydown, keyup. cbn [negb keys set_keys].
  set (k := toLowerCase key). split; intros Hk.
  - unfold keys_add. destruct (keys_has (keys g) k) eqn:Hhas.
    + apply keys_has_elem_of in Hhas. contradiction.
    + unfold keys_delete. rewrite List.filter_app. cbn [List.filter].
      rewrite String.eqb_refl. cbn [negb]. rewrite app_nil_r.
      apply List.forallb_filter_id, forallb_forall. intros k' Hin.
      apply negb_true_iff, String.eqb_neq. intros <-.
      apply Hk, list_elem_of_In, Hin.
  - unfold keys_add. apply keys_has_elem_of in Hk. rewrite Hk. reflexivity.
Qed.

Lemma press_and_release_restores_keys_witness :
  keys (keyup "X" (keydown false "X" game_with_keys)) = keys game_with_keys /\
  keys (keydown false "D" game_with_keys) = keys game_with_keys.
Proof.
  destruct (press_and_release_restores_keys "X" game_with_keys) as [Hx _].
  destruct (press_and_release_restores_keys "D" game_with_keys) as [_ Hd].
  split; [apply Hx|apply Hd].
  - rewrite list_elem_of_In. cbn. intuition discriminate.
  - rewrite list_elem_of_In. cbn. auto.
Defined.

Section HeldKeys.
Variables (st : Settings) (rnd : nat -> Q).

Lemma keys_invariant (P : list string -> Prop) :
  (forall k ks, P ks -> P (keys_add (toLowerCase k) ks)) ->
  (forall k ks, P ks -> P (keys_delete (toLowerCase k) ks)) ->
  forall w evs, P (keys (game w)) -> P (keys (game (run st rnd w evs))).
Proof.
  intros Hadd Hdel w evs Hw.
  apply (run_invariant_any st rnd (fun w => P (keys (game w)))); try assumption.
  - intros w' repeat key Hk. cbn [upd game]. unfold keydown.
    destruct (negb repeat); [apply Hadd, Hk|exact Hk].
  - intros w' key Hk. apply Hdel, Hk.
  - intros w' win now Hk. rewrite loop_keys. exact Hk.
Qed.
End HeldKeys.

(** X3.  Whatever the events since [setup], the held keys are pairwise distinct
    and all in lower case; frames never change them. *)
Theorem held_keys_distinct_and_lower_case st rnd win t0 evs :
  let ks := keys (game (run st rnd (setup st rnd win t0) evs)) in
  NoDup ks /\ (forall k, k ∈ ks -> toLowerCase k = k) /\
  (forall win' now,
     keys (game (handle st rnd (run st rnd (setup st rnd win t0) evs) (Frame win' now))) = ks).
Proof.
  cbv zeta. split; [|split].
  - apply keys_invariant.
    + intros k ks. apply keys_add_NoDup.
    + intros k ks. apply keys_delete_NoDup.
    + apply NoDup_nil_2.
  - apply (keys_invariant st rnd (fun ks => forall k, k ∈ ks -> toLowerCase k = k)).
    + intros k ks Hks k' Hk'. apply keys_add_elem_of in Hk' as [->|Hk'];
        [apply toLowerCase_idempotent|apply Hks, Hk'].
    + intros k ks Hks k' Hk'. apply keys_delete_elem_of in Hk' as [_ Hk']. apply Hks, Hk'.
    + intros k Hk. cbn in Hk. inversion Hk.
  - intros win' now. apply loop_keys.
Qed.

(** ** The keyboard map: what is in it *)

Lemma spread_length row : length (spread row) = String.length row.
Proof. induction row as [|ch row IH]; [reflexivity|]. cbn. rewrite IH. reflexivity. Qed.

Section KeyMapContents.
Variables widest nrows : nat.

(** A row adds its keys to the map and nothing else; whatever the map then
    holds for a key is what it held before or the vector of one of the
    columns of that key. *)
Lemma forEach_row_contents (r : nat) (cs : list string) :
  forall (c0 : nat) (m : gmap string Vec) k,
    let m' := forEach (fun key c map => <[ key := key_vec widest nrows r c ]> map) cs c0 m in
    (is_Some (m' !! k) <-> is_Some (m !! k) \/ k ∈ cs) /\
    (forall v, m' !! k = Some v ->
       m !! k = Some v \/
       exists c, cs !! c = Some k /\ v = key_vec widest nrows r (c0 + c)).
Proof.
  induction cs as [|a cs IH]; intros c0 m k; cbn [forEach].
  - split; [|auto]. rewrite elem_of_nil. tauto.
  - destruct (IH (S c0) (<[ a := key_vec widest nrows r c0 ]> m) k) as [IHdom IHval].
    cbv zeta in IHdom, IHval. split.
    + rewrite IHdom, elem_of_cons, lookup_insert_is_Some. 
      destruct (decide (a = k)) as [->|Hne]; [tauto|]. 
      split; [intros [[H|[_ H]]|H]; auto; congruence|intros [H|[H|H]]; auto; congruence].
    + intros v Hv. destruct (IHval v Hv) as [Hm|(c & Hc & ->)].
      * destruct (decide (a = k)) as [->|Hne].
        -- rewrite lookup_insert_eq in Hm. injection Hm as <-.
           right. exists 0%nat. rewrite Nat.add_0_r. split; reflexivity.
        -- rewrite lookup_insert_ne in Hm by exact Hne. left. exact Hm.
      * right. exists (S c). rewrite Nat.add_succ_r. split; [exact Hc|reflexivity].
Qed.

Lemma forEach_rows_contents (rows : list string) :
  forall (r0 : nat) (m : gmap string Vec) k,
    let m' := forEach (fun row r map =>
                forEach (fun key c map => <[ key := key_vec widest nrows r c ]> map)
                  (spread row) 0%nat map) rows r0 m in
    (is_Some (m' !! k) <-> is_Some (m !! k) \/ exists r c, char_at rows r c k) /\
    (forall v, m' !! k = Some v ->
       m !! k = Some v \/
       exists r c, char_at rows r c k /\ v = key_vec widest nrows (r0 + r) c).
Proof.
  induction rows as [|row rows IH]; intros r0 m k; cbn [forEach].
  - split; [|auto]. split; [auto|]. intros [H|(r & c & row & Hrow & _)]; [exact H|discriminate].
  - destruct (forEach_row_contents r0 (spread row) 0%nat m k) as [Hdom Hval].
    cbv zeta in Hdom, Hval.
    set (m1 := forEach _ (spread row) 0%nat m) in *.
    destruct (IH (S r0) m1 k) as [IHdom IHval]. cbv zeta in IHdom, IHval.
    split.
    + rewrite IHdom, Hdom. split.
      * intros [[H|H]|(r & c & row' & Hrow' & Hc)]; [auto| |].
        -- right. apply list_elem_of_lookup in H as [c Hc].
           exists 0%nat, c, row. split; [reflexivity|exact Hc].
        -- right. exists (S r), c, row'. split; assumption.
      * intros [H|(r & c & row' & Hrow' & Hc)]; [auto|].
        destruct r as [|r].
        -- injection Hrow' as <-. left. right. apply list_elem_of_lookup. eauto.
        -- right. exists r, c, row'. split; assumption.
    + intros v Hv. destruct (IHval v Hv) as [Hm1|(r & c & (row' & Hrow' & Hc) & ->)].
      * destruct (Hval v Hm1) as [Hm|(c & Hc & ->)]; [auto|].
        right. exists 0%nat, c. rewrite Nat.add_0_r. split; [|reflexivity].
        exists row. split; [reflexivity|exact Hc].
      * right. exists (S r), c. rewrite Nat.add_succ_r. split; [|reflexivity].
        exists row'. split; assumption.
Qed.
End KeyMapContents.

Lemma makeKeyMap_value_source (rows : list string) k v :
  makeKeyMap rows !! k = Some v ->
  exists r c, char_at rows r c k /\ v = key_vec (widest_of rows) (length rows) r c.
Proof.
  unfold makeKeyMap. cbv zeta.
  destruct (forEach_rows_contents (widest_of rows) (length rows) rows 0%nat ∅ k) as [_ Hval].
  cbv zeta in Hval. intros Hv.
  destruct (Hval v Hv) as [Hm|H]; [rewrite lookup_empty in Hm; discriminate|exact H].
Qed.

(** X4.  The map holds a vector for exactly the keys that stand somewhere in the
    layout, and each vector it holds is the one computed for a place where
    that key stands. *)
Theorem makeKeyMap_contents (rows : list string) k :
  (is_Some (makeKeyMap rows !! k) <-> exists r c, char_at rows r c k) /\
  (forall v, makeKeyMap rows !! k = Some v ->
     exists r c, char_at rows r c k /\ v = key_vec (widest_of rows) (length rows) r c).
Proof.
  split; [|apply makeKeyMap_value_source].
  unfold makeKeyMap. cbv zeta.
  destruct (forEach_rows_contents (widest_of rows) (length rows) rows 0%nat ∅ k) as [Hdom _].
  cbv zeta in Hdom. rewrite Hdom, lookup_empty.
  split; [intros [[v Hv]|H]; [discriminate|exact H]|auto].
Qed.

Lemma char_at_bounds (rows : list string) r c k :
  char_at rows r c k -> (r < length rows)%nat /\ (c < widest_of rows)%nat.
Proof.
  intros (row & Hrow & Hc). split; [apply lookup_lt_Some in Hrow; exact Hrow|].
  apply lookup_lt_Some in Hc. rewrite spread_length in Hc.
  pose proof (widest_of_bound rows row) as Hw.
  assert (row ∈ rows) as Hin by (apply list_elem_of_lookup; eauto).
  specialize (Hw Hin). lia.
Qed.

Lemma num_le a b : (a <= b)%nat -> num a <= num b.
Proof. intros H. unfold num. rewrite <- Zle_Qle. lia. Qed.

Lemma num_minus_1 n : (1 <= n)%nat -> num n - 1 == num (n - 1).
Proof.
  intros H. unfold num, Qeq. cbn. lia.
Qed.

(** A coordinate [i / (n - 1) * 2 - 1] with [i < n] and [n >= 2] lies
    between -1 and 1. *)
Lemma coordinate_range i n :
  (2 <= n)%nat -> (i < n)%nat ->
  -1 <= (num i / (num n - 1)) * 2 - 1 /\ (num i / (num n - 1)) * 2 - 1 <= 1.
Proof.
  intros Hn Hi.
  assert (Hd : 0 < num n - 1).
  { rewrite num_minus_1 by lia. change 0 with (num 0). unfold num.
    rewrite <- Zlt_Qlt. lia. }
  assert (Hle : num i <= num n - 1) by (rewrite num_minus_1 by lia; apply num_le; lia).
  assert (H0 : 0 <= num i) by (change 0 with (num 0); apply num_le; lia).
  assert (Hq0 : 0 <= num i / (num n - 1)).
  { apply Qle_shift_div_l; [exact Hd|]. lra. }
  assert (Hq1 : num i / (num n - 1) <= 1).
  { apply Qle_shift_div_r; [exact Hd|]. lra. }
  revert Hq0 Hq1. generalize (num i / (num n - 1)) as q. intros q Hq0 Hq1. split; lra.
Qed.

Lemma key_vec_in_unit_square (rows : list string) r c k :
  (2 <= length rows)%nat -> (2 <= widest_of rows)%nat -> char_at rows r c k ->
  let v := key_vec (widest_of rows) (length rows) r c in
  -1 <= vx v /\ vx v <= 1 /\ -1 <= vy v /\ vy v <= 1.
Proof.
  intros Hrows Hwide Hat.
  destruct (char_at_bounds rows r c k Hat) as [Hr Hc].
  unfold key_vec. cbn [vx vy].
  destruct (coordinate_range c (widest_of rows) Hwide Hc).
  destruct (coordinate_range r (length rows) Hrows Hr). auto.
Qed.

(** X5.  In a layout of at least two rows and two columns every vector of the
    map has both components between -1 and 1. *)
Theorem makeKeyMap_vectors_in_unit_square (rows : list string) k v :
  (2 <= length rows)%nat -> (2 <= widest_of rows)%nat ->
  makeKeyMap rows !! k = Some v ->
  -1 <= vx v /\ vx v <= 1 /\ -1 <= vy v /\ vy v <= 1.
Proof.
  intros Hrows Hwide Hv.
  destruct (makeKeyMap_value_source rows k v Hv) as (r & c & Hat & ->).
  apply (key_vec_in_unit_square rows r c k); assumption.
Qed.

Lemma makeKeyMap_vectors_in_unit_square_witness :
  ((2 <= length rows)%nat /\ (2 <= widest_of rows)%nat /\
   directions !! "p"%string = Some (key_vec 10 3 0 9)) /\
  -1 <= vx (key_vec 10 3 0 9) /\ vx (key_vec 10 3 0 9) <= 1 /\
  -1 <= vy (key_vec 10 3 0 9) /\ vy (key_vec 10 3 0 9) <= 1.
Proof.
  assert (Hrows : (2 <= length rows)%nat) by (cbn; lia).
  assert (Hwide : (2 <= widest_of rows)%nat) by (cbn; lia).
  assert (Hp : directions !! "p"%string = Some (key_vec 10 3 0 9)) by (vm_compute; reflexivity).
  split; [repeat split; assumption|].
  exact (makeKeyMap_vectors_in_unit_square rows "p"%string (key_vec 10 3 0 9) Hrows Hwide Hp).
Defined.

Lemma coordinate_injective i j n :
  (2 <= n)%nat ->
  (num i / (num n - 1)) * 2 - 1 == (num j / (num n - 1)) * 2 - 1 -> i = j.
Proof.
  intros Hn Heq.
  assert (Hd : ~ num n - 1 == 0).
  { rewrite num_minus_1 by lia. unfold num, Qeq. cbn. lia. }
  assert (Hij : num i == num j).
  { assert (Hi : num i == (((num i / (num n - 1)) * 2 - 1) + 1) / 2 * (num n - 1))
      by (field; exact Hd).
    rewrite Hi, Heq. field. exact Hd. }
  unfold num, Qeq in Hij. cbn in Hij. lia.
Qed.

(** X6.  In a layout of at least two rows and two columns two different keys
    never share a vector. *)
Theorem makeKeyMap_distinct_keys_distinct_vectors (rows : list string) k1 k2 v1 v2 :
  (2 <= length rows)%nat -> (2 <= widest_of rows)%nat ->
  k1 <> k2 ->
  makeKeyMap rows !! k1 = Some v1 -> makeKeyMap rows !! k2 = Some v2 ->
  v1 <> v2.
Proof.
  intros Hrows Hwide Hne Hv1 Hv2 Heq.
  destruct (makeKeyMap_value_source rows k1 v1 Hv1) as (r1 & c1 & Hat1 & ->).
  destruct (makeKeyMap_value_source rows k2 v2 Hv2) as (r2 & c2 & Hat2 & E).
  rewrite E in Heq. clear E.
  assert (Hx : vx (key_vec (widest_of rows) (length rows) r1 c1)
               == vx (key_vec (widest_of rows) (length rows) r2 c2)) by (rewrite Heq; reflexivity).
  assert (Hy : vy (key_vec (widest_of rows) (length rows) r1 c1)
               == vy (key_vec (widest_of rows) (length rows) r2 c2)) by (rewrite Heq; reflexivity).
  cbn [key_vec vx vy] in Hx, Hy.
  apply coordinate_injective in Hx; [|exact Hwide].
  apply coordinate_injective in Hy; [|exact Hrows].
  subst r2 c2. destruct Hat1 as (row1 & Hrow1 & Hc1). destruct Hat2 as (row2 & Hrow2 & Hc2).
  congruence.
Qed.

Lemma makeKeyMap_distinct_keys_distinct_vectors_witness :
  ((2 <= length rows)%nat /\ (2 <= widest_of rows)%nat /\ "q"%string <> "a"%string) /\
  key_vec 10 3 0 0 <> key_vec 10 3 1 0.
Proof.
  assert (Hrows : (2 <= length rows)%nat) by (cbn; lia).
  assert (Hwide : (2 <= widest_of rows)%nat) by (cbn; lia).
  assert (Hne : "q"%string <> "a"%string) by discriminate.
  split; [repeat split; assumption|].
  apply (makeKeyMap_distinct_keys_distinct_vectors rows "q"%string "a"%string
           (key_vec 10 3 0 0) (key_vec 10 3 1 0) Hrows Hwide Hne); vm_compute; reflexivity.
Defined.

(** ** The direction of the held keys *)

Section DirectionOfKeys.
Variable m : gmap string Vec.

Lemma getKeyDirection_in_app_h (ks : list string) :
  getKeyDirection_in m (ks ++ ["h"%string]) = getKeyDirection_in m ks.
Proof.
  induction ks as [|k ks IH]; [reflexivity|].
  cbn [app getKeyDirection_in]. rewrite IH. reflexivity.
Qed.

Lemma getKeyDirection_in_delete_h (ks : list string) :
  getKeyDirection_in m (keys_delete "h" ks) = getKeyDirection_in m ks.
Proof.
  unfold keys_delete. induction ks as [|k ks IH]; [reflexivity|].
  cbn [List.filter getKeyDirection_in]. rewrite (String.eqb_sym "h" k).
  destruct (String.eqb k "h") eqn:Hh; cbn [negb]; [exact IH|].
  cbn [getKeyDirection_in]. rewrite Hh, IH. reflexivity.
Qed.

Lemma getKeyDirection_in_cases (ks : list string) :
  getKeyDirection_in m ks = {| vx := 0; vy := 0 |} \/
  exists k, k ∈ ks /\ k <> "h"%string /\ m !! k = Some (getKeyDirection_in m ks).
Proof.
  induction ks as [|k ks IH]; [left; reflexivity|].
  cbn [getKeyDirection_in]. destruct (String.eqb k "h") eqn:Hh.
  - destruct IH as [IH|(k' & Hin & Hne & Hm)]; [left; exact IH|].
    right. exists k'. split; [right; exact Hin|]. split; assumption.
  - destruct (m !! k) as [v|] eqn:Hk.
    + right. exists k. split; [left|]. split; [apply String.eqb_neq, Hh|exact Hk].
    + destruct IH as [IH|(k' & Hin & Hne & Hm)]; [left; exact IH|].
      right. exists k'. split; [right; exact Hin|]. split; assumption.
Qed.
End DirectionOfKeys.

(** X7.  Pressing or releasing H, in either case, never changes the direction
    that the held keys give. *)
Theorem h_key_never_steers key repeat g :
  toLowerCase key = "h"%string ->
  getKeyDirection (keydown repeat key g) = getKeyDirection g /\
  getKeyDirection (keyup key g) = getKeyDirection g.
Proof.
  intros Hkey. unfold getKeyDirection, keydown, keyup. rewrite Hkey.
  generalize directions as m. intros m. split.
  - destruct repeat; cbn [negb]; [reflexivity|]. cbn [keys set_keys].
    unfold keys_add. destruct (keys_has (keys g) "h"); [reflexivity|].
    apply getKeyDirection_in_app_h.
  - cbn [keys set_keys]. apply getKeyDirection_in_delete_h.
Qed.

Lemma h_key_never_steers_witness :
  toLowerCase "H" = "h"%string /\
  getKeyDirection (keydown false "H" game_with_keys) = getKeyDirection game_with_keys /\
  getKeyDirection (keyup "H" game_with_keys) = getKeyDirection game_with_keys.
Proof.
  assert (Hkey : toLowerCase "H" = "h"%string) by reflexivity.
  split; [exact Hkey|].
  exact (h_key_never_steers "H" false game_with_keys Hkey).
Defined.

(** X8.  The direction is the zero vector or the vector that the map holds for
    one of the held keys other than H; with the script's three rows both
    its components lie between -1 and 1. *)
Theorem getKeyDirection_is_held_key_or_zero g :
  (getKeyDirection g = {| vx := 0; vy := 0 |} \/
   exists k, k ∈ keys g /\ k <> "h"%string /\ directions !! k = Some (getKeyDirection g)) /\
  (-1 <= vx (getKeyDirection g) /\ vx (getKeyDirection g) <= 1 /\
   -1 <= vy (getKeyDirection g) /\ vy (getKeyDirection g) <= 1).
Proof.
  assert (Hcases := getKeyDirection_in_cases directions (keys g)).
  fold (getKeyDirection g) in Hcases. split; [exact Hcases|].
  destruct Hcases as [Hz|(k & _ & _ & Hk)].
  - rewrite Hz. cbn [vx vy]. repeat split; discriminate.
  - revert Hk. generalize (getKeyDirection g) as v. intros v Hk.
    destruct (makeKeyMap_value_source rows k v Hk) as (r & c & Hat & ->).
    apply (key_vec_in_unit_square rows r c k); [cbn; lia|cbn; lia|exact Hat].
Qed.

(** ** Game over *)

Section GameOver.
Variables (st : Settings) (rnd : nat -> Q).

Lemma handle_dead w e :
  playing (game w) = false ->
  simulation_of (game (handle st rnd w e)) = simulation_of (game w) /\
  drawn (handle st rnd w e) = drawn w.
Proof.
  intros Hp. destruct e as [[] key|key|win now]; cbn [handle]; try (split; reflexivity).
  rewrite (loop_dead st rnd win now w Hp). split; reflexivity.
Qed.

Lemma simulation_of_playing g g' : simulation_of g' = simulation_of g -> playing g' = playing g.
Proof. intros H. exact (f_equal (fun p => fst (fst (fst (fst (fst p))))) H). Qed.
End GameOver.

(** X9.  Once the game is over nothing brings it back: whatever events follow,
    [playing] stays false, position, velocity, charge, cooldown, overheat
    flag, elapsed time and drift keep their values and no random number is
    drawn.  Only the held keys and the stored timestamp still change. *)
Theorem game_over_is_final st rnd w evs :
  playing (game w) = false ->
  let w' := run st rnd w evs in
  playing (game w') = false /\
  simulation_of (game w') = simulation_of (game w) /\
  drawn w' = drawn w.
Proof.
  intros Hp. cbv zeta. revert w Hp. induction evs as [|e evs IH]; intros w Hp.
  - repeat split. exact Hp.
  - rewrite run_cons. destruct (handle_dead st rnd w e Hp) as [Hsim Hdrawn].
    assert (Hp' : playing (game (handle st rnd w e)) = false).
    { rewrite (simulation_of_playing _ _ Hsim). exact Hp. }
    destruct (IH _ Hp') as (H1 & H2 & H3).
    split; [exact H1|]. split; [rewrite H2; exact Hsim|rewrite H3; exact Hdrawn].
Qed.

Lemma game_over_is_final_witness :
  playing (game dead_world) = false /\
  let w' := run settings rnd_zero dead_world [KeyDown false "h"; Frame win_1000 3000] in
  playing (game w') = false /\
  simulation_of (game w') = simulation_of (game dead_world) /\
  drawn w' = drawn dead_world.
Proof.
  assert (Hp : playing (game dead_world) = false) by (vm_compute; reflexivity).
  split; [exact Hp|].
  exact (game_over_is_final settings rnd_zero dead_world
           [KeyDown false "h"; Frame win_1000 3000] Hp).
Defined.

(** ** The clock *)



(** ** What a frame writes to the page *)

Section PageWrites.
Variables (st : Settings) (rnd : nat -> Q).

Lemma h_pull_out c dt u g :
  snd (h_pull st c dt u g) = if u then [BlobFlash 80] else [].
Proof. unfold h_pull. destruct u; reflexivity. Qed.

Lemma loop_out_alive win now w :
  playing (game w) = true ->
  snd (loop st rnd win now w) =
    let m := moved st rnd win now w in
    let out := if usingH (game w) then [BlobFlash 80] else [] in
    if out_of_circle st (center win) (radius win) (game m)
    then out ++ [ArenaFlash (flashTime st); GameOverText]
    else (out ++ [SetPositionPixels (x (game m) - blobSize st / 2)
                                    (y (game m) - blobSize st / 2)])
         ++ [TimeText (time (game m) + dt_of now w); RequestAnimationFrame].
Proof.
  intros Hp. unfold loop, moved, dt_of. cbn [upd game set_lastFrame playing]. rewrite Hp.
  cbn [negb]. cbv zeta. unfold upd. cbn [game drawn].
  change (usingH (set_lastFrame now (game w))) with (usingH (game w)).
  match goal with |- context [h_pull ?s ?c ?d ?u ?g] =>
    pose proof (h_pull_out c d u g) as Hout; destruct (h_pull s c d u g) as [g1 out] end.
  cbn [fst snd] in *. subst out.
  destruct (out_of_circle _ _ _ _); reflexivity.
Qed.
End PageWrites.

(** X11.  A frame of a finished game writes nothing.  A frame of a running game
    flashes the blob exactly when the pull is in use; then, if the game goes
    on, it draws the blob at its new position (top-left corner: the center
    minus half the blob size), shows the new elapsed time and asks for the
    next frame, and if the game ends it flashes the arena, appends the
    game-over text and asks for no further frame. *)
Theorem loop_page_writes st rnd win now w :
  let w' := fst (loop st rnd win now w) in
  snd (loop st rnd win now w) =
    if playing (game w) then page_writes st (usingH (game w)) (game w') else [].
Proof.
  cbv zeta. destruct (playing (game w)) eqn:Hp;
    [|rewrite (loop_dead st rnd win now w Hp); reflexivity].
  rewrite (loop_out_alive st rnd win now w Hp), (loop_alive st rnd win now w Hp). cbv zeta.
  pose proof (moved_flags st rnd win now w) as Hf. rewrite Hp in Hf.
  revert Hf. generalize (moved st rnd win now w) as m. intros m Hf.
  assert (Hpm : playing (game m) = true) by exact (f_equal (fun p => fst (fst (fst p))) Hf).
  unfold page_writes.
  destruct (out_of_circle _ _ _ _); fields; rewrite ?Hpm; [reflexivity|].
  rewrite <- app_assoc. reflexivity.
Qed.

(** ** The arena *)

(** X12.  In a window with non-negative sides the circle of the arena fits in the
    window: its radius is not negative and its leftmost, rightmost, topmost
    and bottommost points are inside. *)
Theorem arena_fits_the_window win :
  0 <= innerWidth win -> 0 <= innerHeight win ->
  let c := center win in
  let r := radius win in
  0 <= r /\
  0 <= vx c - r /\ vx c + r <= innerWidth win /\
  0 <= vy c - r /\ vy c + r <= innerHeight win.
Proof.
  intros Hw Hh. unfold center, radius. cbn [vx vy]. unfold Qdiv.
  change (/ 2) with (1 # 2).
  destruct (Q.min_spec (innerWidth win) (innerHeight win)) as [[Hlt ->]|[Hle ->]];
    repeat split; lra.
Qed.

Lemma arena_fits_the_window_witness :
  (0 <= innerWidth win_1000 /\ 0 <= innerHeight win_1000) /\
  0 <= radius win_1000 /\
  0 <= vx (center win_1000) - radius win_1000 /\
  vx (center win_1000) + radius win_1000 <= innerWidth win_1000 /\
  0 <= vy (center win_1000) - radius win_1000 /\
  vy (center win_1000) + radius win_1000 <= innerHeight win_1000.
Proof.
  assert (Hw : 0 <= innerWidth win_1000) by discriminate.
  assert (Hh : 0 <= innerHeight win_1000) by discriminate.
  split; [split; assumption|].
  exact (arena_fits_the_window win_1000 Hw Hh).
Defined.

(** X13.  In a window so small that the radius of the arena is less than half the
    blob size, every frame of a running game ends the game, wherever the
    blob is and whatever keys are held. *)
Theorem small_window_ends_the_game st rnd win now w :
  radius win < blobSize st / 2 ->
  playing (game w) = true ->
  playing (game (fst (loop st rnd win now w))) = false.
Proof.
  intros Hr Hp. rewrite (loop_playing st rnd win now w Hp). apply negb_false_iff.
  unfold out_of_circle, hypot_gt. apply orb_true_iff. left. apply Qlt_bool_iff.
  revert Hr. generalize (blobSize st / 2) (radius win). intros b r Hr. lra.
Qed.

Lemma small_window_ends_the_game_witness :
  (radius win_tiny < blobSize settings / 2 /\ playing (game moving_world) = true) /\
  playing (game (fst (loop settings rnd_zero win_tiny 2000 moving_world))) = false.
Proof.
  assert (Hr : radius win_tiny < blobSize settings / 2) by (vm_compute; reflexivity).
  assert (Hp : playing (game moving_world) = true) by (vm_compute; reflexivity).
  split; [split; assumption|].
  exact (small_window_ends_the_game settings rnd_zero win_tiny 2000 moving_world Hr Hp).
Defined.

(** ** Drift *)

Section DriftBound.
Variables (st : Settings) (rnd : nat -> Q).
Hypothesis rnd_range : forall n, 0 <= rnd n /\ rnd n < 1.
Hypothesis power_nonneg : 0 <= driftPower st.

Lemma sample_bounded n :
  - driftPower st <= (rnd n * 2 - 1) * driftPower st /\
  (rnd n * 2 - 1) * driftPower st <= driftPower st.
Proof. destruct (rnd_range n) as [H0 H1]. split; nra. Qed.

Lemma loop_drift_bounded win now w :
  drift_bounded st (game w) -> drift_bounded st (game (fst (loop st rnd win now w))).
Proof.
  intros Hw. destruct (playing (game w)) eqn:Hp;
    [|rewrite (loop_dead st rnd win now w Hp); exact Hw].
  destruct (loop_fields st rnd win now w Hp) as (_ & _ & _ & _ & HdX & HdY & _).
  destruct (drift_of_xy _ _ (moved_drift st rnd win now w)) as [HmX HmY].
  destruct (apply_drift_drift st rnd (dt_of now w) (upd (set_lastFrame now) w)) as [HaX HaY].
  cbn [upd game drawn driftTimer driftX driftY set_lastFrame] in HaX, HaY.
  unfold drift_bounded. rewrite HdX, HdY, HmX, HmY, HaX, HaY.
  destruct Hw as (H1 & H2 & H3 & H4).
  destruct (Qle_bool _ 0).
  - destruct (sample_bounded (drawn w)). destruct (sample_bounded (S (drawn w))). auto.
  - auto.
Qed.
End DriftBound.

(** X14.  With [Math.random()] in [0, 1) and a non-negative [driftPower], after
    every trace from [setup] both components of the drift lie between
    [-driftPower] and [driftPower]. *)
Theorem drift_stays_within_power st rnd win t0 evs :
  (forall n, 0 <= rnd n /\ rnd n < 1) -> 0 <= driftPower st ->
  let g := game (run st rnd (setup st rnd win t0) evs) in
  - driftPower st <= driftX g /\ driftX g <= driftPower st /\
  - driftPower st <= driftY g /\ driftY g <= driftPower st.
Proof.
  intros Hrnd Hpow. cbv zeta.
  apply (run_invariant_any st rnd (fun w => drift_bounded st (game w))).
  - intros w repeat key Hw. cbn [upd game]. unfold keydown. destruct (negb repeat); exact Hw.
  - intros w key Hw. exact Hw.
  - intros w win' now. apply loop_drift_bounded; assumption.
  - unfold drift_bounded, setup, pickNewDrift, random, upd.
    cbn [game drawn driftX driftY set_driftX set_driftY set_driftTimer].
    destruct (sample_bounded st rnd Hrnd Hpow 0). destruct (sample_bounded st rnd Hrnd Hpow 1).
    auto.
Qed.

Lemma drift_stays_within_power_witness :
  ((forall n, 0 <= rnd_zero n /\ rnd_zero n < 1) /\ 0 <= driftPower settings) /\
  let g := game (run settings rnd_zero (setup settings rnd_zero win_1000 0)
                   [Frame win_1000 1000]) in
  - driftPower settings <= driftX g /\ driftX g <= driftPower settings /\
  - driftPower settings <= driftY g /\ driftY g <= driftPower settings.
Proof.
  assert (Hrnd : forall n, 0 <= rnd_zero n /\ rnd_zero n < 1).
  { intros n. unfold rnd_zero. split; [discriminate|reflexivity]. }
  assert (Hpow : 0 <= driftPower settings) by discriminate.
  split; [split; assumption|].
  exact (drift_stays_within_power settings rnd_zero win_1000 0 [Frame win_1000 1000] Hrnd Hpow).
Defined.

(** ** The battery, frame by frame *)

(** X15.  A frame of a running game with the pull in use and [dt > 0] takes [dt]
    off the charge, stopping at 0, so the charge goes down strictly; the
    overheat flag comes up exactly when the charge was not more than [dt],
    and then the cooldown starts at [hCooldown]. *)
Theorem pull_drains_charge st rnd win now w :
  playing (game w) = true -> usingH (game w) = true -> 0 < dt_of now w ->
  let g' := game (fst (loop st rnd win now w)) in
  hLeft g' = Qmax 0 (hLeft (game w) - dt_of now w) /\
  hLeft g' < hLeft (game w) /\
  (hOverheat g' = true <-> hLeft (game w) <= dt_of now w) /\
  (hOverheat g' = true -> hCooling g' = hCooldown st).
Proof.
  intros Hp Hu Hdt. cbv zeta.
  pose proof (loop_battery st rnd win now w Hp) as Hb. rewrite Hu in Hb.
  assert (Hcharge : 0 < hLeft (game w)).
  { unfold usingH, canUseH in Hu. apply andb_true_iff in Hu as [_ Hu].
    apply andb_true_iff in Hu as [_ Hu]. apply Qlt_bool_iff, Hu. }
  assert (Hoff : hOverheat (game w) = false) by (apply usingH_not_overheated, Hu).
  revert Hb. generalize (game (fst (loop st rnd win now w))) as g'. intros g' Hb.
  unfold battery_step, battery in Hb. cbn [b_left b_cooling b_overheat] in Hb.
  revert Hcharge Hdt Hb. generalize (dt_of now w) (hLeft (game w)). intros dt l Hcharge Hdt Hb.
  assert (Hmax : Qmax 0 (l - dt) < l).
  { apply Q.max_lub_lt; lra. }
  destruct (Qeq_bool (Qmax 0 (l - dt)) 0) eqn:Hz; injection Hb as Hl Hc Ho;
    rewrite Hl, Ho; (split; [reflexivity|]); (split; [exact Hmax|]).
  - apply Qeq_bool_iff in Hz. split; [split; [intros _|reflexivity]|intros _; exact Hc].
    destruct (Q.max_spec 0 (l - dt)) as [[Hlt E]|[Hle E]]; rewrite E in Hz; lra.
  - apply Qeq_bool_false in Hz. rewrite Hoff. split; [split; [discriminate|]|discriminate].
    intros Hle. exfalso. apply Hz.
    destruct (Q.max_spec 0 (l - dt)) as [[Hlt E]|[Hle' E]]; rewrite E; [lra|reflexivity].
Qed.

Lemma pull_drains_charge_witness :
  let w := upd (keydown false "h") moving_world in
  (playing (game w) = true /\ usingH (game w) = true /\ 0 < dt_of 2000 w) /\
  hLeft (game (fst (loop settings rnd_zero win_1000 2000 w)))
  = Qmax 0 (hLeft (game w) - dt_of 2000 w).
Proof.
  cbv zeta.
  assert (Hp : playing (game (upd (keydown false "h") moving_world)) = true)
    by (vm_compute; reflexivity).
  assert (Hu : usingH (game (upd (keydown false "h") moving_world)) = true)
    by (vm_compute; reflexivity).
  assert (Hdt : 0 < dt_of 2000 (upd (keydown false "h") moving_world))
    by (vm_compute; reflexivity).
  split; [repeat split; assumption|].
  exact (proj1 (pull_drains_charge settings rnd_zero win_1000 2000
                  (upd (keydown false "h") moving_world) Hp Hu Hdt)).
Defined.

(** X16.  A frame of a running game with the pull not in use and no overheat adds
    [hRegen * dt] to the charge, stopping at [hMax]: with [dt >= 0] and a
    charge of at most [hMax] the charge does not go down and stays at most
    [hMax], and the flag and the cooldown are left alone.  During an
    overheat the charge is left alone and the cooldown loses [dt], stopping
    at 0. *)
Theorem idle_frame_recharges_or_cools st rnd win now w :
  playing (game w) = true -> usingH (game w) = false ->
  0 <= dt_of now w -> 0 <= hRegen st -> hLeft (game w) <= hMax st ->
  let g' := game (fst (loop st rnd win now w)) in
  (hOverheat (game w) = false ->
   hLeft g' = Qmin (hMax st) (hLeft (game w) + hRegen st * dt_of now w) /\
   hLeft (game w) <= hLeft g' /\ hLeft g' <= hMax st /\
   hOverheat g' = false /\ hCooling g' = hCooling (game w)) /\
  (hOverheat (game w) = true ->
   hLeft g' = hLeft (game w) /\
   hCooling g' = Qmax 0 (hCooling (game w) - dt_of now w)).
Proof.
  intros Hp Hu Hdt Hregen Hmax. cbv zeta.
  pose proof (loop_battery st rnd win now w Hp) as Hb. rewrite Hu in Hb.
  revert Hb. generalize (game (fst (loop st rnd win now w))) as g'. intros g' Hb.
  unfold battery_step, battery in Hb. cbn [b_left b_cooling b_overheat] in Hb.
  split; intros Ho; rewrite Ho in Hb; injection Hb as Hl Hc Ho'.
  - rewrite Hl, Hc, Ho'. split; [reflexivity|].
    revert Hdt Hmax. generalize (dt_of now w) (hLeft (game w)). intros dt l Hdt Hmax.
    split; [apply Q.min_glb; [exact Hmax|nra]|].
    split; [apply Q.le_min_l|]. split; reflexivity.
  - rewrite Hl, Hc. split; reflexivity.
Qed.

Lemma idle_frame_recharges_or_cools_witness :
  (playing (game moving_world) = true /\ usingH (game moving_world) = false /\
   0 <= dt_of 2000 moving_world /\ 0 <= hRegen settings /\
   hLeft (game moving_world) <= hMax settings) /\
  (hOverheat (game moving_world) = false ->
   hLeft (game (fst (loop settings rnd_zero win_1000 2000 moving_world)))
   = Qmin (hMax settings) (hLeft (game moving_world) + hRegen settings * dt_of 2000 moving_world)).
Proof.
  assert (Hp : playing (game moving_world) = true) by (vm_compute; reflexivity).
  assert (Hu : usingH (game moving_world) = false) by (vm_compute; reflexivity).
  assert (Hdt : 0 <= dt_of 2000 moving_world) by (vm_compute; discriminate).
  assert (Hregen : 0 <= hRegen settings) by discriminate.
  assert (Hmax : hLeft (game moving_world) <= hMax settings) by (vm_compute; discriminate).
  split; [repeat split; assumption|].
  intros Ho.
  exact (proj1 (proj1 (idle_frame_recharges_or_cools settings rnd_zero win_1000 2000
                         moving_world Hp Hu Hdt Hregen Hmax) Ho)).
Defined.

(** ** Motion, frame by frame *)

(** X17.  The integration step of a running game.  The velocity first gains [dt]
    times the acceleration: the drift in force after this frame's timer
    check, the push of the held keys, and either the pull towards the center
    (H in use) or the wiggle of two fresh random draws.  The position then
    moves by [dt] times this new velocity, and friction is applied to the
    velocity last, so it does not take part in this frame's move. *)
Theorem frame_motion st rnd win now w :
  playing (game w) = true ->
  let dt := dt_of now w in
  let u := usingH (game w) in
  let d := getKeyDirection (game w) in
  let g' := game (fst (loop st rnd win now w)) in
  exists n,
    let ax := driftX g' + vx d * pushPower st +
              (if u then (vx (center win) - x (game w)) * pullPower st
               else (rnd n - 0.5) * randomShake st) in
    let ay := driftY g' + vy d * pushPower st +
              (if u then (vy (center win) - y (game w)) * pullPower st
               else (rnd (S n) - 0.5) * randomShake st) in
    x g' == x (game w) + (sx (game w) + ax * dt) * dt /\
    y g' == y (game w) + (sy (game w) + ay * dt) * dt /\
    sx g' == (sx (game w) + ax * dt) * slowDown st /\
    sy g' == (sy (game w) + ay * dt) * slowDown st.
Proof.
  intros Hp dt u d g'.
  destruct (loop_fields st rnd win now w Hp) as (Hx & Hy & Hsx & Hsy & HdX & HdY & _).
  fold g' in Hx, Hy, Hsx, Hsy, HdX, HdY.
  destruct (moved_motion st rnd win now w) as (n & Hm). cbv zeta in Hm.
  fold dt u d in Hm. exists n. cbv zeta.
  rewrite Hx, Hy, Hsx, Hsy, HdX, HdY. exact Hm.
Qed.

Lemma frame_motion_witness :
  playing (game moving_world) = true /\
  exists n,
    x (game (fst (loop settings rnd_zero win_1000 2000 moving_world)))
    == x (game moving_world)
       + (sx (game moving_world)
          + (driftX (game (fst (loop settings rnd_zero win_1000 2000 moving_world)))
             + vx (getKeyDirection (game moving_world)) * pushPower settings
             + (if usingH (game moving_world)
                then (vx (center win_1000) - x (game moving_world)) * pullPower settings
                else (rnd_zero n - 0.5) * randomShake settings))
            * dt_of 2000 moving_world)
         * dt_of 2000 moving_world.
Proof.
  assert (Hp : playing (game moving_world) = true) by (vm_compute; reflexivity).
  split; [exact Hp|].
  destruct (frame_motion settings rnd_zero win_1000 2000 moving_world Hp) as (n & Hx & _).
  exists n. exact Hx.
Defined.

(** X18.  With drift and wiggle configured to 0, no drift left in the state and no
    key held, a frame of a running game is pure coasting: the blob moves by
    [dt] times its velocity and the velocity is multiplied by [slowDown];
    with [slowDown] between 0 and 1 the speed does not grow. *)
Theorem coasting_frame st rnd win now w :
  playing (game w) = true -> keys (game w) = [] ->
  driftPower st == 0 -> randomShake st == 0 ->
  driftX (game w) == 0 -> driftY (game w) == 0 ->
  let g' := game (fst (loop st rnd win now w)) in
  (x g' == x (game w) + sx (game w) * dt_of now w /\
   y g' == y (game w) + sy (game w) * dt_of now w /\
   sx g' == sx (game w) * slowDown st /\
   sy g' == sy (game w) * slowDown st /\
   driftX g' == 0 /\ driftY g' == 0) /\
  (0 <= slowDown st -> slowDown st <= 1 ->
   sx g' * sx g' <= sx (game w) * sx (game w) /\
   sy g' * sy g' <= sy (game w) * sy (game w)).
Proof.
  intros Hp Hk Hdrift Hshake HdX HdY g'.
  destruct (loop_fields st rnd win now w Hp) as (Hx & Hy & Hsx & Hsy & HdX' & HdY' & _).
  fold g' in Hx, Hy, Hsx, Hsy, HdX', HdY'.
  destruct (moved_motion st rnd win now w) as (n & Hm). cbv zeta in Hm.
  rewrite (no_keys_no_pull _ Hk), (no_keys_no_push _ Hk) in Hm. cbn [vx vy] in Hm.
  destruct (drift_of_xy _ _ (moved_drift st rnd win now w)) as [HmX HmY].
  destruct (apply_drift_drift st rnd (dt_of now w) (upd (set_lastFrame now) w)) as [HaX HaY].
  cbn [upd game drawn driftTimer driftX driftY set_lastFrame] in HaX, HaY.
  rewrite HaX in HmX. rewrite HaY in HmY. clear HaX HaY.
  assert (HX0 : driftX g' == 0).
  { rewrite HdX', HmX. destruct (Qle_bool _ 0); [rewrite Hdrift; ring|exact HdX]. }
  assert (HY0 : driftY g' == 0).
  { rewrite HdY', HmY. destruct (Qle_bool _ 0); [rewrite Hdrift; ring|exact HdY]. }
  rewrite <- HdX', <- HdY', <- Hx, <- Hy, <- Hsx, <- Hsy in Hm.
  clear Hx Hy Hsx Hsy HdX' HdY' HmX HmY. clearbody g'.
  rewrite HX0, HY0, Hshake in Hm. destruct Hm as (Hmx & Hmy & Hmsx & Hmsy).
  assert (Ex : x g' == x (game w) + sx (game w) * dt_of now w) by (rewrite Hmx; ring).
  assert (Ey : y g' == y (game w) + sy (game w) * dt_of now w) by (rewrite Hmy; ring).
  assert (Esx : sx g' == sx (game w) * slowDown st) by (rewrite Hmsx; ring).
  assert (Esy : sy g' == sy (game w) * slowDown st) by (rewrite Hmsy; ring).
  split; [repeat split; assumption|].
  intros H0 H1. rewrite Esx, Esy.
  generalize (sx (game w)) (sy (game w)) (slowDown st) H0 H1. intros a b f Hf0 Hf1.
  assert (Hff : f * f <= 1) by nra.
  split.
  - setoid_replace (a * f * (a * f)) with (a * a * (f * f)) using relation Qeq by ring.
    assert (0 <= a * a) by nra. nra.
  - setoid_replace (b * f * (b * f)) with (b * b * (f * f)) using relation Qeq by ring.
    assert (0 <= b * b) by nra. nra.
Qed.

Lemma coasting_frame_witness :
  let w := setup settings_calm rnd_zero win_1000 0 in
  (playing (game w) = true /\ keys (game w) = [] /\
   driftPower settings_calm == 0 /\ randomShake settings_calm == 0 /\
   driftX (game w) == 0 /\ driftY (game w) == 0) /\
  sx (game (fst (loop settings_calm rnd_zero win_1000 1000 w)))
  == sx (game w) * slowDown settings_calm.
Proof.
  cbv zeta.
  assert (Hp : playing (game (setup settings_calm rnd_zero win_1000 0)) = true) by reflexivity.
  assert (Hk : keys (game (setup settings_calm rnd_zero win_1000 0)) = []) by reflexivity.
  assert (Hd : driftPower settings_calm == 0) by reflexivity.
  assert (Hs : randomShake settings_calm == 0) by reflexivity.
  assert (HX : driftX (game (setup settings_calm rnd_zero win_1000 0)) == 0)
    by (vm_compute; reflexivity).
  assert (HY : driftY (game (setup settings_calm rnd_zero win_1000 0)) == 0)
    by (vm_compute; reflexivity).
  split; [repeat split; assumption|].
  destruct (coasting_frame settings_calm rnd_zero win_1000 1000
              (setup settings_calm rnd_zero win_1000 0) Hp Hk Hd Hs HX HY)
    as [(_ & _ & Hsx & _) _].
  exact Hsx.
Defined.

(** ** Randomness *)

Section RandomDraws.
Variables (st : Settings) (rnd rnd' : nat -> Q).

Lemma apply_drift_no_resample dt w :
  Qle_bool (driftTimer (game w) - dt) 0 = false ->
  apply_drift st rnd dt w = apply_drift st rnd' dt w /\
  drawn (apply_drift st rnd dt w) = drawn w.
Proof.
  intros Hno. unfold apply_drift. cbv zeta. cbn [upd game driftTimer set_driftTimer].
  rewrite Hno. split; reflexivity.
Qed.
End RandomDraws.

(** X19.  A frame of a running game with the pull in use and the drift timer not
    yet run out draws no random number: its result, state and page writes,
    is the same under every random source. *)
Theorem pull_frame_is_deterministic st rnd rnd' win now w :
  playing (game w) = true -> usingH (game w) = true ->
  0 < driftTimer (game w) - dt_of now w ->
  loop st rnd win now w = loop st rnd' win now w /\
  drawn (fst (loop st rnd win now w)) = drawn w.
Proof.
  intros Hp Hu Htimer. apply Qle_bool_false in Htimer.
  destruct (apply_drift_no_resample st rnd rnd' (dt_of now w) (upd (set_lastFrame now) w) Htimer)
    as [Hsame Hdrawn].
  unfold loop. cbn [upd game set_lastFrame playing]. rewrite Hp. cbn [negb]. cbv zeta.
  change (usingH (set_lastFrame now (game w))) with (usingH (game w)). rewrite Hu.
  fold (dt_of now w). fold (upd (set_lastFrame now) w). rewrite <- Hsame.
  cbn [wiggle negb].
  revert Hdrawn. generalize (apply_drift st rnd (dt_of now w) (upd (set_lastFrame now) w)) as a.
  intros a Hdrawn. split; [reflexivity|].
  destruct (h_pull _ _ _ _ _) as [g1 out].
  destruct (out_of_circle _ _ _ _); cbn [fst upd drawn]; exact Hdrawn.
Qed.

Lemma pull_frame_is_deterministic_witness :
  let w := upd (keydown false "h") (setup settings rnd_zero win_1000 0) in
  (playing (game w) = true /\ usingH (game w) = true /\
   0 < driftTimer (game w) - dt_of 100 w) /\
  loop settings rnd_zero win_1000 100 w = loop settings rnd_half win_1000 100 w.
Proof.
  cbv zeta.
  assert (Hp : playing (game (upd (keydown false "h") (setup settings rnd_zero win_1000 0)))
               = true) by reflexivity.
  assert (Hu : usingH (game (upd (keydown false "h") (setup settings rnd_zero win_1000 0)))
               = true) by (vm_compute; reflexivity).
  assert (Ht : 0 < driftTimer (game (upd (keydown false "h")
                                       (setup settings rnd_zero win_1000 0)))
                   - dt_of 100 (upd (keydown false "h") (setup settings rnd_zero win_1000 0)))
    by (vm_compute; reflexivity).
  split; [repeat split; assumption|].
  exact (proj1 (pull_frame_is_deterministic settings rnd_zero rnd_half win_1000 100
                  (upd (keydown false "h") (setup settings rnd_zero win_1000 0)) Hp Hu Ht)).
Defined.

(** ** How long the pull and the overheat last *)

Section Durations.
Variables (st : Settings) (rnd : nat -> Q).





End Durations.





(** X22.  Releasing H stops the pull at once, and pressing it starts the pull
    exactly when the battery allows it: no overheat and charge left. *)
Theorem h_key_switches_the_pull key g :
  toLowerCase key = "h"%string ->
  usingH (keyup key g) = false /\
  usingH (keydown false key g) = canUseH g.
Proof.
  intros Hkey. unfold usingH, keyup, keydown. rewrite Hkey. cbn [negb keys set_keys]. split.
  - assert (Hgone : keys_has (keys_delete "h" (keys g)) "h" = false).
    { apply not_true_iff_false. rewrite keys_has_elem_of, keys_delete_elem_of.
      intros [Hne _]. congruence. }
    rewrite Hgone. reflexivity.
  - assert (Hheld : keys_has (keys_add "h" (keys g)) "h" = true).
    { apply keys_has_elem_of, keys_add_elem_of. left. reflexivity. }
    rewrite Hheld. reflexivity.
Qed.

Lemma h_key_switches_the_pull_witness :
  toLowerCase "H" = "h"%string /\
  usingH (keyup "H" game_with_keys) = false /\
  usingH (keydown false "H" game_with_keys) = canUseH game_with_keys.
Proof.
  assert (Hkey : toLowerCase "H" = "h"%string) by reflexivity.
  split; [exact Hkey|].
  exact (h_key_switches_the_pull "H" game_with_keys Hkey).
Defined.

(** ** The pull when the battery does not allow it *)

Section KeysCommute.
Variables (st : Settings) (rnd : nat -> Q).

Lemma apply_drift_set_keys ks dt w :
  apply_drift st rnd dt (upd (set_keys ks) w) = upd (set_keys ks) (apply_drift st rnd dt w).
Proof.
  unfold apply_drift. cbv zeta. cbn [upd game driftTimer set_driftTimer set_keys].
  destruct (Qle_bool (driftTimer (game w) - dt) 0); reflexivity.
Qed.

Lemma wiggle_set_keys ks dt u w :
  wiggle st rnd dt u (upd (set_keys ks) w) = upd (set_keys ks) (wiggle st rnd dt u w).
Proof. destruct u; reflexivity. Qed.

Lemma keyboard_push_set_keys ks1 ks2 dt g :
  getKeyDirection_in directions ks1 = getKeyDirection_in directions ks2 ->
  keyboard_push st dt (set_keys ks2 g) = set_keys ks2 (keyboard_push st dt (set_keys ks1 g)).
Proof.
  intros Hd. unfold keyboard_push, getKeyDirection. cbv zeta. cbn [keys set_keys].
  rewrite Hd. generalize (getKeyDirection_in directions ks2) as d. intros d. reflexivity.
Qed.

Lemma h_pull_idle_set_keys ks c dt g :
  h_pull st c dt false (set_keys ks g) =
  (set_keys ks (fst (h_pull st c dt false g)), snd (h_pull st c dt false g)).
Proof.
  unfold h_pull. destruct g as [? ? ? ? ? ? ? ? [] ? ? ? ? ?];
    cbn [hOverheat set_keys hCooling set_hCooling].
  - destruct (Qeq_bool _ 0); reflexivity.
  - reflexivity.
Qed.

Lemma canUseH_false_usingH g : canUseH g = false -> usingH g = false.
Proof. unfold usingH. intros ->. apply andb_false_r. Qed.

(** With the pull not allowed, two sets of held keys that give the same
    direction give the same frame. *)
Lemma loop_keys_irrelevant win now w ks1 ks2 :
  playing (game w) = true -> canUseH (game w) = false ->
  getKeyDirection_in directions ks1 = getKeyDirection_in directions ks2 ->
  loop st rnd win now (upd (set_keys ks2) w) =
  (upd (set_keys ks2) (fst (loop st rnd win now (upd (set_keys ks1) w))),
   snd (loop st rnd win now (upd (set_keys ks1) w))).
Proof.
  intros Hp Hc Hd.
  assert (Hu : forall ks, usingH (game (upd (set_lastFrame now) (upd (set_keys ks) w))) = false).
  { intros ks. apply canUseH_false_usingH. exact Hc. }
  assert (Hpl : forall ks, playing (game (upd (set_lastFrame now) (upd (set_keys ks) w))) = true).
  { intros ks. exact Hp. }
  unfold loop. cbv zeta. rewrite !Hu, !Hpl. cbn [negb].
  change (lastFrame (game (upd (set_keys ks2) w))) with (lastFrame (game w)).
  change (lastFrame (game (upd (set_keys ks1) w))) with (lastFrame (game w)).
  fold (dt_of now w).
  change (upd (set_lastFrame now) (upd (set_keys ks2) w))
    with (upd (set_keys ks2) (upd (set_lastFrame now) w)).
  change (upd (set_lastFrame now) (upd (set_keys ks1) w))
    with (upd (set_keys ks1) (upd (set_lastFrame now) w)).
  rewrite !apply_drift_set_keys, !wiggle_set_keys.
  generalize (wiggle st rnd (dt_of now w) false
                (apply_drift st rnd (dt_of now w) (upd (set_lastFrame now) w))) as a.
  intros [g n]. cbn [upd game drawn].
  rewrite (keyboard_push_set_keys ks1 ks2 (dt_of now w) g Hd).
  generalize (keyboard_push st (dt_of now w) (set_keys ks1 g)) as g1. intros g1.
  rewrite h_pull_idle_set_keys.
  destruct (h_pull st (center win) (dt_of now w) false g1) as [g2 out]. cbn [fst snd].
  change (out_of_circle st (center win) (radius win) (move_friction st (dt_of now w) (set_keys ks2 g2)))
    with (out_of_circle st (center win) (radius win) (move_friction st (dt_of now w) g2)).
  destruct (out_of_circle st (center win) (radius win) (move_friction st (dt_of now w) g2));
    reflexivity.
Qed.
End KeysCommute.

(** X23.  While the battery does not allow the pull (overheat, or no charge left)
    the H key does nothing: a frame of a running game with H pressed just
    before, or released just before, has the same result as without that
    key event, held keys aside, and writes the same to the page. *)
Theorem h_key_is_dead_while_unusable st rnd win now w key :
  playing (game w) = true -> canUseH (game w) = false ->
  toLowerCase key = "h"%string ->
  loop st rnd win now (upd (keydown false key) w) =
    (upd (keydown false key) (fst (loop st rnd win now w)), snd (loop st rnd win now w)) /\
  loop st rnd win now (upd (keyup key) w) =
    (upd (keyup key) (fst (loop st rnd win now w)), snd (loop st rnd win now w)).
Proof.
  intros Hp Hc Hkey.
  assert (Hself : upd (set_keys (keys (game w))) w = w) by (destruct w as [[] n]; reflexivity).
  assert (Hkeys : keys (game (fst (loop st rnd win now w))) = keys (game w)) by apply loop_keys.
  assert (Hset : forall ks w', upd (set_keys ks) (upd (set_keys (keys (game w))) w')
                               = upd (set_keys ks) w').
  { intros ks [[] n]. reflexivity. }
  split.
  - assert (Hd : getKeyDirection_in directions (keys (game w))
                 = getKeyDirection_in directions (keys_add "h" (keys (game w)))).
    { unfold keys_add. destruct (keys_has (keys (game w)) "h"); [reflexivity|].
      symmetry. apply getKeyDirection_in_app_h. }
    pose proof (loop_keys_irrelevant st rnd win now w _ _ Hp Hc Hd) as H.
    rewrite Hself in H. unfold keydown. rewrite Hkey. cbn [negb].
    change (upd (fun g => set_keys (keys_add "h" (keys g)) g) w)
      with (upd (set_keys (keys_add "h" (keys (game w)))) w).
    rewrite H. f_equal.
    generalize (fst (loop st rnd win now w)) Hkeys. intros [g n] Hk. cbn [game] in Hk.
    unfold upd. cbn [game drawn]. rewrite Hk. reflexivity.
  - assert (Hd : getKeyDirection_in directions (keys (game w))
                 = getKeyDirection_in directions (keys_delete "h" (keys (game w)))).
    { symmetry. apply getKeyDirection_in_delete_h. }
    pose proof (loop_keys_irrelevant st rnd win now w _ _ Hp Hc Hd) as H.
    rewrite Hself in H. unfold keyup. rewrite Hkey.
    change (upd (fun g => set_keys (keys_delete "h" (keys g)) g) w)
      with (upd (set_keys (keys_delete "h" (keys (game w)))) w).
    rewrite H. f_equal.
    generalize (fst (loop st rnd win now w)) Hkeys. intros [g n] Hk. cbn [game] in Hk.
    unfold upd. cbn [game drawn]. rewrite Hk. reflexivity.
Qed.

Lemma h_key_is_dead_while_unusable_witness :
  let w := run settings rnd_half (setup settings rnd_half win_1000 0) trace_hold_h in
  (playing (game w) = true /\ canUseH (game w) = false /\ toLowerCase "H" = "h"%string) /\
  loop settings rnd_half win_1000 4416 (upd (keyup "H") w) =
    (upd (keyup "H") (fst (loop settings rnd_half win_1000 4416 w)),
     snd (loop settings rnd_half win_1000 4416 w)).
Proof.
  cbv zeta.
  assert (Hp : playing (game (run settings rnd_half (setup settings rnd_half win_1000 0)
                                trace_hold_h)) = true) by (vm_compute; reflexivity).
  assert (Hc : canUseH (game (run settings rnd_half (setup settings rnd_half win_1000 0)
                                trace_hold_h)) = false) by (vm_compute; reflexivity).
  assert (Hkey : toLowerCase "H" = "h"%string) by reflexivity.
  split; [repeat split; assumption|].
  exact (proj2 (h_key_is_dead_while_unusable settings rnd_half win_1000 4416
                  (run settings rnd_half (setup settings rnd_half win_1000 0) trace_hold_h)
                  "H" Hp Hc Hkey)).
Defined.
